(** * Mana NFT collection ledger: shallow embedding and verified properties

    The contract class [Collections] and the namespace [Constants]
    (src/assembly) are embedded as functions in a state-and-error monad
    over the contract's eight storage spaces. The Koinos SDK ([System],
    [SafeMath], [Storage], [Arrays], [Base58], [StringBytes]) is not part of
    the repository; the few functions the contract calls are modelled by
    what they compute.

    - unsigned 64-bit integers are values of [N]; the SDK's checked
      arithmetic ([SafeMath]) is written out with its overflow tests;
    - [Uint8Array] addresses are [list byte]; strings are [string];
    - every [Storage.Map] is a [gmap], every [Storage.Obj] an [option];
      a [get] decodes a fresh copy of the stored record (or builds the
      default), a [put] stores a copy, so two reads of one key are two
      independent objects;
    - [System.require] and friends abort the call; the host then discards
      every write of the aborted transaction. *)

From Stdlib Require Import NArith ZArith String Ascii List Lia.
From Stdlib.Strings Require Import Byte.
From Stdlib Require Import DecimalString DecimalN.
From stdpp Require Import base option countable list strings gmap fin_maps.

Import ListNotations.
Local Open Scope string_scope.
Local Open Scope N_scope.

(** ** Machine data *)

Definition u64 := N.
Definition U64_MAX : N := 18446744073709551615.

(** [Uint8Array] *)
Definition bytes := list byte.

#[global] Instance byte_eq_dec : EqDecision byte := Byte.byte_eq_dec.

Definition byte_of_N_total (n : N) : byte :=
  match Byte.of_N n with Some b => b | None => x00 end.

#[global] Instance byte_countable : Countable byte.
Proof.
  refine (inj_countable' Byte.to_N byte_of_N_total _).
  intros b. unfold byte_of_N_total. by rewrite Byte.of_to_N.
Defined.

(** [Arrays.equal] of the SDK: same length and same contents. *)
Definition Arrays_equal (first second : bytes) : bool :=
  bool_decide (first = second).

(** [u64.toString()]: the decimal numeral, no sign, no leading zero. *)
Definition u64_toString (n : u64) : string :=
  NilZero.string_of_uint (N.to_uint n).

(** [StringBytes.bytesToString] / [StringBytes.stringToBytes]: a string is
    represented by its UTF-8 bytes, one character per byte. (The SDK's
    decoder also stops at a NUL byte; the properties below send the same
    bytes through the same decoder on both sides and decode only what
    [stringToBytes] produced from numerals.) *)
Definition StringBytes_bytesToString (b : bytes) : string :=
  string_of_list_byte b.
Definition StringBytes_stringToBytes (s : string) : bytes :=
  list_byte_of_string s.

(** ** Base58 (SDK), used for the operator-approval key and the owner
    constant *)
Module Base58.

Definition ALPHABET : string :=
  "123456789ABCDEFGHJKLMNPQRSTUVWXYZabcdefghijkmnopqrstuvwxyz".

Definition digit (d : N) : ascii :=
  match String.get (N.to_nat d) ALPHABET with
  | Some c => c
  | None => "1"%char
  end.

Fixpoint index_in (c : ascii) (s : string) (i : N) : option N :=
  match s with
  | EmptyString => None
  | String c' s' => if Ascii.eqb c c' then Some i else index_in c s' (N.succ i)
  end.

(** big-endian value of a byte string *)
Definition to_number (bs : bytes) : N :=
  fold_left (fun acc b => 256 * acc + Byte.to_N b) bs 0.

Fixpoint leading_zeros (bs : bytes) : nat :=
  match bs with
  | x00 :: bs' => S (leading_zeros bs')
  | _ => O
  end.

Fixpoint digits (fuel : nat) (n : N) (acc : string) : string :=
  match fuel with
  | O => acc
  | S fuel' =>
      if n =? 0 then acc
      else digits fuel' (n / 58) (String (digit (n mod 58)) acc)
  end.

Fixpoint ones (k : nat) (s : string) : string :=
  match k with
  | O => s
  | S k' => String "1"%char (ones k' s)
  end.

Definition encode (bs : bytes) : string :=
  ones (leading_zeros bs) (digits (2 * length bs) (to_number bs) "").

Fixpoint leading_ones (s : string) : nat :=
  match s with
  | String "1"%char s' => S (leading_ones s')
  | _ => O
  end.

Fixpoint from_digits (s : string) (acc : N) : option N :=
  match s with
  | EmptyString => Some acc
  | String c s' =>
      match index_in c ALPHABET 0 with
      | Some d => from_digits s' (58 * acc + d)
      | None => None
      end
  end.

Fixpoint number_bytes (fuel : nat) (n : N) (acc : bytes) : bytes :=
  match fuel with
  | O => acc
  | S fuel' =>
      if n =? 0 then acc
      else
        number_bytes fuel' (n / 256)
          (byte_of_N_total (n mod 256) :: acc)
  end.

Definition decode (s : string) : option bytes :=
  match from_digits s 0 with
  | Some n =>
      Some (repeat x00 (leading_ones s)
              ++ number_bytes (String.length s) n [])%list
  | None => None
  end.

End Base58.

(** ** Namespace [Constants] *)
Module Constants.

Definition NAME : string := "Mana NFT".
Definition SYMBOL : string := "MANA NFT".
Definition MINT_PRICE : u64 := 100000000.
Definition MAX_SUPPLY : u64 := 10000000.
Definition URI : string :=
  "https://kanvas-app.com/api/kanvas_gods/get_metadata".
Definition OWNER : bytes :=
  match Base58.decode "1HYwnKgGwixZXF1odcdu651cU1DfR5EGX8" with
  | Some b => b
  | None => []
  end.

End Constants.

(** ** Protobuf messages *)

(** Modelled from the spec: the message classes of [./proto/collections]
    (generated from the protobuf definitions) are not among the sources.
    Each record has the fields the contract reads and writes, typed after
    the data model: a token has an owner, a balance and the supply are
    unsigned 64-bit counts, a token list is an ordered sequence of
    identifiers, the configuration is an owner and a royalty schedule of
    (address, amount) pairs. *)
Module collections.

Record balance_object := mk_balance_object { balance_value : u64 }.
Record uint64_object := mk_uint64_object { uint64_value : u64 }.
Record token_object := mk_token_object { token_owner : bytes }.
Record token_approval_object :=
  mk_token_approval_object { approval_address : bytes }.
Record operator_approval_object :=
  mk_operator_approval_object { operator_approved : bool }.
Record tokens_of_result := mk_tokens_of_result { token_id : list string }.
Record royalty_object :=
  mk_royalty_object { royalty_address : bytes; royalty_amount : u64 }.
Record config_object :=
  mk_config_object { config_owner : bytes;
                     config_royalties : list royalty_object }.
(** query results; an address result that was never assigned is absent *)
Record address_object := mk_address_object { address_value : option bytes }.
Record bool_object := mk_bool_object { bool_value : bool }.
Record string_object := mk_string_object { string_value : string }.
Record royalties_result :=
  mk_royalties_result { royalties_value : list royalty_object }.
Inductive empty_object := mk_empty_object.

(** event payloads *)
Inductive event_message :=
| mint_event (to token_id : bytes)
| transfer_event (from to token_id : bytes)
| token_approval_event (approver_address to token_id : bytes)
| operator_approval_event (approver_address operator_address : bytes)
                          (approved : bool)
| royalties_event (value : list royalty_object)
| owner_event (from to : bytes).

End collections.
Import collections.

(** ** Contract storage: one field per storage space *)
Record Collections := mk_Collections {
  _supply : option balance_object;
  _tokens : gmap string token_object;
  _balances : gmap bytes balance_object;
  _approvals : gmap string token_approval_object;
  _operators : gmap string operator_approval_object;
  _tokensOf : gmap bytes tokens_of_result;
  _config : option config_object;
  _manaCost : option uint64_object
}.

(** the storage of a freshly deployed contract *)
Definition empty_storage : Collections :=
  mk_Collections None ∅ ∅ ∅ ∅ ∅ None None.

Definition set_supply v (s : Collections) : Collections :=
  mk_Collections v (_tokens s) (_balances s) (_approvals s) (_operators s)
    (_tokensOf s) (_config s) (_manaCost s).
Definition set_tokens v (s : Collections) : Collections :=
  mk_Collections (_supply s) v (_balances s) (_approvals s) (_operators s)
    (_tokensOf s) (_config s) (_manaCost s).
Definition set_balances v (s : Collections) : Collections :=
  mk_Collections (_supply s) (_tokens s) v (_approvals s) (_operators s)
    (_tokensOf s) (_config s) (_manaCost s).
Definition set_approvals v (s : Collections) : Collections :=
  mk_Collections (_supply s) (_tokens s) (_balances s) v (_operators s)
    (_tokensOf s) (_config s) (_manaCost s).
Definition set_operators v (s : Collections) : Collections :=
  mk_Collections (_supply s) (_tokens s) (_balances s) (_approvals s) v
    (_tokensOf s) (_config s) (_manaCost s).
Definition set_tokensOf v (s : Collections) : Collections :=
  mk_Collections (_supply s) (_tokens s) (_balances s) (_approvals s)
    (_operators s) v (_config s) (_manaCost s).
Definition set_config v (s : Collections) : Collections :=
  mk_Collections (_supply s) (_tokens s) (_balances s) (_approvals s)
    (_operators s) (_tokensOf s) v (_manaCost s).

(** ** Host interface *)

(** What the host tells the contract during one call. *)
Record Env := mk_Env {
  contractId : bytes;                 (* System.getContractId() *)
  caller : bytes;                     (* System.getCaller().caller *)
  checkAuthority : bytes -> bool;     (* System.checkAuthority(contract_call, _) *)
  compute_bandwidth_cost : u64;       (* System.getResourceLimits() *)
  network_bandwidth_cost : u64;
  disk_storage_cost : u64
}.

Record event := mk_event {
  event_name : string;
  event_data : event_message;
  event_impacted : list bytes
}.

(** The world a call runs in: the storage, the events emitted so far and
    the number of busy-loop iterations executed so far. *)
Record World := mk_World {
  store : Collections;
  events : list event;
  loops_run : N
}.

Definition enter (s : Collections) : World := mk_World s [] 0.

Inductive error_code := reversion | failure | authorization_failure.

Record error := mk_error { code : error_code; message : string }.

Inductive result (A : Type) :=
| Ok (a : A)
| Err (e : error).
Arguments Ok {A} a.
Arguments Err {A} e.

(** A contract computation: it returns or aborts, and in both cases shows
    the world at that point. *)
Definition M (A : Type) : Type := World -> result A * World.

Definition ret {A} (a : A) : M A := fun w => (Ok a, w).

Definition bind {A B} (m : M A) (k : A -> M B) : M B :=
  fun w =>
    match m w with
    | (Ok a, w') => k a w'
    | (Err e, w') => (Err e, w')
    end.

Definition exit {A} (c : error_code) (msg : string) : M A :=
  fun w => (Err (mk_error c msg), w).

Definition gets {A} (f : Collections -> A) : M A :=
  fun w => (Ok (f (store w)), w).

Definition modify (f : Collections -> Collections) : M unit :=
  fun w => (Ok tt, mk_World (f (store w)) (events w) (loops_run w)).

Notation "'let*' x ':=' m 'in' k" := (bind m (fun x => k))
  (at level 10, x name, m at level 100, k at level 200).
Notation "m ';;' k" := (bind m (fun _ => k))
  (at level 100, k at level 200, right associativity, only parsing).

Module System.

(** [System.require(cond, message, code = reversion)] *)
Definition require (cond : bool) (msg : string) (c : error_code) : M unit :=
  if cond then ret tt else exit c msg.

Definition requireAuthority (env : Env) (account : bytes) : M unit :=
  require (checkAuthority env account)
    ("account '" ++ Base58.encode account ++ "' authorization failed")%string
    authorization_failure.

Definition event (name : string) (data : event_message)
    (impacted : list bytes) : M unit :=
  fun w =>
    (Ok tt,
     mk_World (store w) (events w ++ [mk_event name data impacted])%list
       (loops_run w)).

End System.

(** [SafeMath] of the SDK on [u64]: the operation, or a reverted call. The
    abort condition and the error code are the SDK's; the message is kept
    to its fixed part (the SDK appends the operands). *)
Module SafeMath.

Definition add (a b : u64) : M u64 :=
  if a + b <=? U64_MAX then ret (a + b) else exit reversion "could not add".

Definition sub (a b : u64) : M u64 :=
  if b <=? a then ret (a - b) else exit reversion "could not subtract".

Definition mul (a b : u64) : M u64 :=
  if a * b <=? U64_MAX then ret (a * b)
  else exit reversion "could not multiply".

Definition div (a b : u64) : M u64 :=
  if b =? 0 then exit reversion "could not divide" else ret (a / b).

End SafeMath.

(** ** Storage accessors

    [Storage.Map.get] returns the decoded record or the space's default
    ([None] where the constructor passes [null]); [Storage.Obj.get] likewise. *)
Module Storage.

Definition supply_default : balance_object := mk_balance_object 0.
Definition balances_default : balance_object := mk_balance_object 0.
Definition tokensOf_default : tokens_of_result := mk_tokens_of_result [].
Definition config_default (contract_id : bytes) : config_object :=
  mk_config_object
    (if (length Constants.OWNER =? 0)%nat then contract_id
     else Constants.OWNER)
    [].
Definition manaCost_default : uint64_object :=
  mk_uint64_object Constants.MINT_PRICE.

Definition supply_get (s : Collections) : balance_object :=
  default supply_default (_supply s).
Definition tokens_get (s : Collections) (k : string) : option token_object :=
  _tokens s !! k.
Definition balances_get (s : Collections) (k : bytes) : balance_object :=
  default balances_default (_balances s !! k).
Definition approvals_get (s : Collections) (k : string)
  : option token_approval_object := _approvals s !! k.
Definition operators_get (s : Collections) (k : string)
  : option operator_approval_object := _operators s !! k.
Definition tokensOf_get (s : Collections) (k : bytes) : tokens_of_result :=
  default tokensOf_default (_tokensOf s !! k).
Definition config_get (contract_id : bytes) (s : Collections)
  : config_object := default (config_default contract_id) (_config s).
Definition manaCost_get (s : Collections) : uint64_object :=
  default manaCost_default (_manaCost s).

Definition supply_put (v : balance_object) : M unit :=
  modify (set_supply (Some v)).
Definition tokens_put (k : string) (v : token_object) : M unit :=
  modify (fun s => set_tokens (<[k := v]> (_tokens s)) s).
Definition balances_put (k : bytes) (v : balance_object) : M unit :=
  modify (fun s => set_balances (<[k := v]> (_balances s)) s).
Definition approvals_put (k : string) (v : token_approval_object) : M unit :=
  modify (fun s => set_approvals (<[k := v]> (_approvals s)) s).
Definition approvals_remove (k : string) : M unit :=
  modify (fun s => set_approvals (delete k (_approvals s)) s).
Definition operators_put (k : string) (v : operator_approval_object)
  : M unit := modify (fun s => set_operators (<[k := v]> (_operators s)) s).
Definition tokensOf_put (k : bytes) (v : tokens_of_result) : M unit :=
  modify (fun s => set_tokensOf (<[k := v]> (_tokensOf s)) s).
Definition config_put (v : config_object) : M unit :=
  modify (set_config (Some v)).

End Storage.

(** ** Array helpers *)

(** [Array#indexOf]: position of the first occurrence, [-1] if there is none *)
Fixpoint indexOf_from (l : list string) (x : string) (i : Z) : Z :=
  match l with
  | [] => (-1)%Z
  | y :: l' => if String.eqb y x then i else indexOf_from l' x (i + 1)%Z
  end.
Definition indexOf (l : list string) (x : string) : Z := indexOf_from l x 0.

(** [Array#splice(start, 1)] for [0 <= start]: drops the element at [start] *)
Definition splice1 (l : list string) (start : Z) : list string :=
  (take (Z.to_nat start) l ++ drop (S (Z.to_nat start)) l)%list.

(** [for (let index: u64 = start; index <= last; index++) body(index)],
    for [last < U64_MAX] (the only use has [last <= MAX_SUPPLY]), so that
    [index++] does not wrap. *)
Fixpoint for_from (n : nat) (index : u64) (body : u64 -> M unit) : M unit :=
  match n with
  | O => ret tt
  | S n' => body index ;; for_from n' (N.succ index) body
  end.
Definition for_u64_le (start last : u64) (body : u64 -> M unit) : M unit :=
  for_from (N.to_nat (N.succ last - start)) start body.

(** ** The contract: class [Collections] *)
Section Contract.

Variable env : Env.

(** *** read-only entry points *)

Definition name : string_object := mk_string_object Constants.NAME.
Definition symbol : string_object := mk_string_object Constants.SYMBOL.
Definition uri : string_object := mk_string_object Constants.URI.

Definition total_supply (s : Collections) : uint64_object :=
  mk_uint64_object (balance_value (Storage.supply_get s)).

Definition royalties (s : Collections) : royalties_result :=
  mk_royalties_result
    (config_royalties (Storage.config_get (contractId env) s)).

Definition owner (s : Collections) : address_object :=
  mk_address_object
    (Some (config_owner (Storage.config_get (contractId env) s))).

Definition balance_of (s : Collections) (owner : bytes) : uint64_object :=
  mk_uint64_object (balance_value (Storage.balances_get s owner)).

Definition tokens_of (s : Collections) (owner : bytes) : tokens_of_result :=
  mk_tokens_of_result (token_id (Storage.tokensOf_get s owner)).

Definition owner_of (s : Collections) (token_id : bytes) : address_object :=
  let token_id := StringBytes_bytesToString token_id in
  match Storage.tokens_get s token_id with
  | Some token => mk_address_object (Some (token_owner token))
  | None => mk_address_object None
  end.

Definition get_approved (s : Collections) (token_id : bytes)
  : address_object :=
  let token_id := StringBytes_bytesToString token_id in
  match Storage.approvals_get s token_id with
  | Some approval => mk_address_object (Some (approval_address approval))
  | None => mk_address_object None
  end.

Definition _get_approved_operator_key (operator owner : bytes) : string :=
  (Base58.encode operator ++ "_" ++ Base58.encode owner)%string.

Definition is_approved_for_all (s : Collections) (owner operator : bytes)
  : bool_object :=
  match Storage.operators_get s (_get_approved_operator_key operator owner) with
  | Some approval => mk_bool_object (operator_approved approval)
  | None => mk_bool_object false
  end.

(** *** internal helpers *)

Definition _checkOwner (config : config_object) : M unit :=
  System.requireAuthority env (config_owner config).

(** one iteration of the busy loop ([compute = compute + 1]) *)
Definition busy_iteration (w : World) : World :=
  mk_World (store w) (events w) (loops_run w + 1).

Definition _consumeMana (manaToConsume computeCost : u64) : M unit :=
  let computeCostPerLoop := 14 in
  let* computeToConsume := SafeMath.div manaToConsume computeCost in
  let* loops := SafeMath.div computeToConsume computeCostPerLoop in
  fun w => (Ok tt, N.iter loops busy_iteration w).

(** *** mint *)

(** body of the minting loop for token number [index] *)
Definition mint_token (to : bytes) (index : u64) : M unit :=
  let tokenId := u64_toString index in
  let newToken := mk_token_object to in
  Storage.tokens_put tokenId newToken ;;
  let* tokensOf := gets (fun s => Storage.tokensOf_get s to) in
  Storage.tokensOf_put to
    (mk_tokens_of_result (token_id tokensOf ++ [tokenId])%list) ;;
  System.event "collections.mint_event"
    (mint_event to (StringBytes_stringToBytes tokenId)) [to].

(** the mana still to be burnt after a mint of [number_tokens_to_mint]
    tokens (lines "Calculate and consume the mana cost of minting" up to
    the call of [_consumeMana]) *)
Definition mint_remainingManaToConsume (number_tokens_to_mint : u64)
  : M u64 :=
  let computeCost := compute_bandwidth_cost env in
  let networkCost := network_bandwidth_cost env in
  let diskStorageCost := disk_storage_cost env in
  let mintComputeValue := 1123019 in
  let mintNetworkValue := 282 in
  let mintDiskStorageValue := 66 in
  let* mc := SafeMath.mul mintComputeValue computeCost in
  let* mn := SafeMath.mul mintNetworkValue networkCost in
  let* mcn := SafeMath.add mc mn in
  let* md := SafeMath.mul mintDiskStorageValue diskStorageCost in
  let* manaConsumed := SafeMath.add mcn md in
  let* manaCost := gets Storage.manaCost_get in
  let* totalManaToConsume :=
    SafeMath.mul (uint64_value manaCost) number_tokens_to_mint in
  ret (if manaConsumed <? totalManaToConsume
       then totalManaToConsume - manaConsumed
       else 0).

Definition mint (to : bytes) (number_tokens_to_mint : u64)
  : M empty_object :=
  let* OWNER :=
    gets (fun s => config_owner (Storage.config_get (contractId env) s)) in
  let* supply := gets Storage.supply_get in
  let* balance := gets (fun s => Storage.balances_get s to) in
  let* tokens := SafeMath.add (balance_value supply) number_tokens_to_mint in
  System.require (number_tokens_to_mint <=? 10)
    "exceeds the limit of tokens to mint of 10" reversion ;;
  System.require (0 <? tokens) "token id out of bounds" reversion ;;
  System.require (tokens <=? Constants.MAX_SUPPLY)
    "token id out of bounds" reversion ;;
  let* start := SafeMath.add (balance_value supply) 1 in
  for_u64_le start tokens (mint_token to) ;;
  let* balance_value' :=
    SafeMath.add (balance_value balance) number_tokens_to_mint in
  System.require (balance_value' <=? Constants.MAX_SUPPLY)
    "exceeds the limit of tokens per address" reversion ;;
  let* supply_value' :=
    SafeMath.add (balance_value supply) number_tokens_to_mint in
  Storage.balances_put to (mk_balance_object balance_value') ;;
  Storage.supply_put (mk_balance_object supply_value') ;;
  let* remainingManaToConsume :=
    mint_remainingManaToConsume number_tokens_to_mint in
  _consumeMana remainingManaToConsume (compute_bandwidth_cost env) ;;
  ret mk_empty_object.

(** *** burn *)

Definition burn (token_id : bytes) : M empty_object := ret mk_empty_object.

(** *** transfer *)

(** the authorisation block of [transfer], entered when the caller is not
    [from]: the final value of [isTokenApproved] *)
Definition transfer_isTokenApproved (s : Collections) (token_id : string)
    (token : token_object) (from : bytes) : bool :=
  let isTokenApproved :=
    match Storage.approvals_get s token_id with
    | Some approval => Arrays_equal (approval_address approval) (caller env)
    | None => false
    end in
  if negb isTokenApproved then
    let isTokenApproved :=
      match Storage.operators_get s
              (_get_approved_operator_key (caller env) (token_owner token))
      with
      | Some operatorApproval => operator_approved operatorApproval
      | None => isTokenApproved
      end in
    if negb isTokenApproved then checkAuthority env from
    else isTokenApproved
  else isTokenApproved.

Definition transfer (from to : bytes) (token_id_bytes : bytes)
  : M empty_object :=
  let token_id := StringBytes_bytesToString token_id_bytes in
  let* token := gets (fun s => Storage.tokens_get s token_id) in
  System.require (bool_decide (is_Some token)) "nonexistent token" failure ;;
  match token with
  | None => exit failure "nonexistent token"
  | Some token =>
      System.require (Arrays_equal (token_owner token) from)
        "from is not a owner" authorization_failure ;;
      (if negb (Arrays_equal (caller env) from) then
         let* isTokenApproved :=
           gets (fun s => transfer_isTokenApproved s token_id token from) in
         System.require isTokenApproved
           "from has not authorized transfer" authorization_failure
       else ret tt) ;;
      Storage.approvals_remove token_id ;;
      let token := mk_token_object to in
      let* balance_from := gets (fun s => Storage.balances_get s from) in
      let* balance_from_value :=
        SafeMath.sub (balance_value balance_from) 1 in
      let* balance_to := gets (fun s => Storage.balances_get s to) in
      let* balance_to_value := SafeMath.add (balance_value balance_to) 1 in
      let* tokens_list_from :=
        gets (fun s => collections.token_id (Storage.tokensOf_get s from)) in
      let* tokens_list_to :=
        gets (fun s => collections.token_id (Storage.tokensOf_get s to)) in
      let token_index := indexOf tokens_list_from token_id in
      System.require (0 <=? token_index)%Z
        "the sender do not own this token according to tokens list"
        reversion ;;
      let tokens_list_from := splice1 tokens_list_from token_index in
      let tokens_list_to := (tokens_list_to ++ [token_id])%list in
      Storage.tokensOf_put from (mk_tokens_of_result tokens_list_from) ;;
      Storage.tokensOf_put to (mk_tokens_of_result tokens_list_to) ;;
      Storage.tokens_put token_id token ;;
      Storage.balances_put to (mk_balance_object balance_to_value) ;;
      Storage.balances_put from (mk_balance_object balance_from_value) ;;
      System.event "collections.transfer_event"
        (transfer_event from to token_id_bytes) [to; from] ;;
      ret mk_empty_object
  end.

(** *** approve *)

Definition approve (approver_address to : bytes) (token_id_bytes : bytes)
  : M empty_object :=
  let token_id := StringBytes_bytesToString token_id_bytes in
  System.requireAuthority env approver_address ;;
  let* token := gets (fun s => Storage.tokens_get s token_id) in
  System.require (bool_decide (is_Some token)) "nonexistent token" failure ;;
  match token with
  | None => exit failure "nonexistent token"
  | Some token =>
      System.require (negb (Arrays_equal (token_owner token) to))
        "approve to current owner" failure ;;
      (if negb (Arrays_equal (token_owner token) approver_address) then
         let* approval :=
           gets (fun s =>
                   Storage.operators_get s
                     (_get_approved_operator_key approver_address
                        (token_owner token))) in
         System.require (bool_decide (is_Some approval))
           "approved does not exist" authorization_failure ;;
         System.require
           (match approval with
            | Some approval => operator_approved approval
            | None => false
            end)
           "approver_address is not owner" authorization_failure
       else ret tt) ;;
      Storage.approvals_put token_id (mk_token_approval_object to) ;;
      System.event "collections.token_approval_event"
        (token_approval_event approver_address to token_id_bytes)
        [to; approver_address] ;;
      ret mk_empty_object
  end.

(** *** set_approval_for_all *)

Definition set_approval_for_all (approver_address operator_address : bytes)
    (approved : bool) : M empty_object :=
  System.requireAuthority env approver_address ;;
  System.require (negb (Arrays_equal approver_address operator_address))
    "approve to operator_address" authorization_failure ;;
  Storage.operators_put
    (_get_approved_operator_key operator_address approver_address)
    (mk_operator_approval_object approved) ;;
  System.event "collections.operator_approval_event"
    (operator_approval_event approver_address operator_address approved)
    [operator_address; approver_address] ;;
  ret mk_empty_object.

(** *** set_royalties *)

(** the summing loop: running total and the impacted accounts so far *)
Fixpoint royalties_loop (royalties : list royalty_object)
    (royaltiesTotal : u64) (impacted : list bytes)
  : M (u64 * list bytes) :=
  match royalties with
  | [] => ret (royaltiesTotal, impacted)
  | royalty :: rest =>
      let impacted := (impacted ++ [royalty_address royalty])%list in
      let* royaltiesTotal :=
        SafeMath.add royaltiesTotal (royalty_amount royalty) in
      royalties_loop rest royaltiesTotal impacted
  end.

Definition set_royalties (value : list royalty_object) : M empty_object :=
  let* config := gets (Storage.config_get (contractId env)) in
  _checkOwner config ;;
  let* r := royalties_loop value 0 [] in
  let royaltiesTotal := fst r in
  let impacted := snd r in
  System.require (royaltiesTotal <=? 10000)
    "MarketplaceV1.execute: ROYALTY_EXCEEDED_MAX" reversion ;;
  Storage.config_put (mk_config_object (config_owner config) value) ;;
  System.event "collections.royalties_event" (royalties_event value)
    impacted ;;
  ret mk_empty_object.

(** *** transfer_ownership *)

Definition transfer_ownership (new_owner : bytes) : M empty_object :=
  let* config := gets (Storage.config_get (contractId env)) in
  _checkOwner config ;;
  let ownerEvent := owner_event (config_owner config) new_owner in
  let impacted := [config_owner config; new_owner] in
  Storage.config_put (mk_config_object new_owner (config_royalties config)) ;;
  System.event "collections.owner_event" ownerEvent impacted ;;
  ret mk_empty_object.

End Contract.

(** ** Transactions and reachable states *)

(** the state-changing entry points with their arguments *)
Inductive operation :=
| op_mint (to : bytes) (number_tokens_to_mint : u64)
| op_transfer (from to token_id : bytes)
| op_approve (approver_address to token_id : bytes)
| op_set_approval_for_all (approver_address operator_address : bytes)
                          (approved : bool)
| op_burn (token_id : bytes)
| op_set_royalties (value : list royalty_object)
| op_transfer_ownership (new_owner : bytes).

Definition run (env : Env) (op : operation) : M empty_object :=
  match op with
  | op_mint to n => mint env to n
  | op_transfer from to t => transfer env from to t
  | op_approve a to t => approve env a to t
  | op_set_approval_for_all a o b => set_approval_for_all env a o b
  | op_burn t => burn t
  | op_set_royalties v => set_royalties env v
  | op_transfer_ownership o => transfer_ownership env o
  end.

(** One transaction: the host keeps the writes and events of a call that
    returns and discards those of a call that aborts. *)
Definition call (env : Env) (op : operation) (s : Collections)
  : result empty_object * Collections * list event :=
  match run env op (enter s) with
  | (Ok r, w) => (Ok r, store w, events w)
  | (Err e, _) => (Err e, s, [])
  end.

(** States reachable from the freshly deployed contract by successful
    calls, under any callers and host answers. *)
Inductive reachable : Collections -> Prop :=
| reachable_empty : reachable empty_storage
| reachable_call env op s r s' evs :
    reachable s ->
    call env op s = (Ok r, s', evs) ->
    reachable s'.

(** sum of the stored balances *)
Definition total_balance (m : gmap bytes balance_object) : N :=
  map_fold (fun _ b acc => balance_value b + acc) 0 m.

(** number of token records owned by an account *)
Definition owned_count (s : Collections) (account : bytes) : nat :=
  length (filter (fun kv => token_owner (snd kv) = account)
            (map_to_list (_tokens s))).

(** the errors raised by the checks of [mint] and [transfer] *)
Definition mint_limit_exceeded : error :=
  mk_error reversion "exceeds the limit of tokens to mint of 10".
Definition token_id_out_of_bounds : error :=
  mk_error reversion "token id out of bounds".
Definition could_not_add : error := mk_error reversion "could not add".
Definition transfer_not_authorized : error :=
  mk_error authorization_failure "from has not authorized transfer".
Definition royalty_exceeded_max : error :=
  mk_error reversion "MarketplaceV1.execute: ROYALTY_EXCEEDED_MAX".

(** [start; start+1; ...], [k] numbers *)
Fixpoint u64_seq (start : u64) (k : nat) : list u64 :=
  match k with
  | O => []
  | S k' => start :: u64_seq (N.succ start) k'
  end.

(** the identifiers assigned by a mint that starts at [start] *)
Definition minted_ids (start : u64) (k : nat) : list string :=
  map u64_toString (u64_seq start k).

(** the exact (unbounded) sum of a schedule's amounts *)
Definition royalties_sum (value : list royalty_object) : N :=
  foldr (fun r acc => royalty_amount r + acc) 0 value.

(** the world right after a [transfer] that returns: every write of the
    call, in the order the code performs them *)
Definition transferred (from to token_id_bytes : bytes) (w : World) : World :=
  let s := store w in
  let tid := StringBytes_bytesToString token_id_bytes in
  let bf := balance_value (Storage.balances_get s from) in
  let bt := balance_value (Storage.balances_get s to) in
  let lf := token_id (Storage.tokensOf_get s from) in
  let lt := token_id (Storage.tokensOf_get s to) in
  mk_World
    (mk_Collections (_supply s)
       (<[tid := mk_token_object to]> (_tokens s))
       (<[from := mk_balance_object (bf - 1)]>
          (<[to := mk_balance_object (bt + 1)]> (_balances s)))
       (delete tid (_approvals s))
       (_operators s)
       (<[to := mk_tokens_of_result (lt ++ [tid])%list]>
          (<[from := mk_tokens_of_result (splice1 lf (indexOf lf tid))]>
             (_tokensOf s)))
       (_config s) (_manaCost s))
    (events w ++ [mk_event "collections.transfer_event"
                    (transfer_event from to token_id_bytes) [to; from]])%list
    (loops_run w).

(** the caller passes the authorisation test of [transfer] for [from] *)
Definition transfer_authorized (env : Env) (s : Collections)
    (from token_id_bytes : bytes) : Prop :=
  caller env = from
  \/ address_value (get_approved s token_id_bytes) = Some (caller env)
  \/ bool_value (is_approved_for_all s from (caller env)) = true
  \/ checkAuthority env from = true.

(** ** Sample accounts, hosts and states used in the examples *)

Definition alice : bytes := ["a"%byte].
Definition bob : bytes := ["b"%byte].
Definition carol : bytes := ["c"%byte].

(** a host where [who] calls, holds authority exactly for itself, and the
    resource costs are 89, 1 and 1 *)
Definition host (who : bytes) : Env :=
  mk_Env [] who (fun account => Arrays_equal account who) 89 1 1.

(** a host where [who] calls and no authority is granted at all *)
Definition host_no_authority (who : bytes) : Env :=
  mk_Env [] who (fun _ => false) 89 1 1.

Definition token_1 : bytes := StringBytes_stringToBytes "1".

(** alice mints token 1 on the fresh contract *)
Definition s_minted : Collections :=
  store (snd (mint (host alice) alice 1 (enter empty_storage))).

(** ... and approves it to bob *)
Definition s_approved : Collections :=
  store (snd (approve (host alice) alice bob token_1 (enter s_minted))).

(** ... or transfers it to herself *)
Definition s_self_transferred : Collections :=
  store (snd (transfer (host alice) alice alice token_1 (enter s_minted))).

(** the world after one iteration of the minting loop *)
Definition mint_token_done (to : bytes) (tokenId : string) (w : World)
  : World :=
  let s := store w in
  mk_World
    (set_tokensOf
       (<[to := mk_tokens_of_result
                  (token_id (Storage.tokensOf_get s to) ++ [tokenId])%list]>
          (_tokensOf s))
       (set_tokens (<[tokenId := mk_token_object to]> (_tokens s)) s))
    (events w ++ [mk_event "collections.mint_event"
                    (mint_event to (StringBytes_stringToBytes tokenId))
                    [to]])%list
    (loops_run w).

(** ... and after the iterations for the identifiers [ids], in order *)
Definition mint_loop_done (to : bytes) (ids : list string) (w : World)
  : World :=
  fold_left (fun w tokenId => mint_token_done to tokenId w) ids w.

(** the mana a mint of [n] tokens attributes to itself, its price, what
    remains to be burnt, and the resulting number of loop iterations *)
Definition mint_manaConsumed (env : Env) : N :=
  1123019 * compute_bandwidth_cost env
  + 282 * network_bandwidth_cost env
  + 66 * disk_storage_cost env.
Definition mint_totalMana (s : Collections) (n : u64) : N :=
  uint64_value (Storage.manaCost_get s) * n.
Definition mint_remaining (env : Env) (s : Collections) (n : u64) : N :=
  if mint_manaConsumed env <? mint_totalMana s n
  then mint_totalMana s n - mint_manaConsumed env
  else 0.
Definition mint_loops (env : Env) (s : Collections) (n : u64) : N :=
  mint_remaining env s n / compute_bandwidth_cost env / 14.

(** the world right after a [mint] that returns *)
Definition minted (env : Env) (to : bytes) (n : u64) (w : World) : World :=
  let s := store w in
  let supply := balance_value (Storage.supply_get s) in
  let balance := balance_value (Storage.balances_get s to) in
  let w1 := mint_loop_done to (minted_ids (supply + 1) (N.to_nat n)) w in
  mk_World
    (set_supply (Some (mk_balance_object (supply + n)))
       (set_balances
          (<[to := mk_balance_object (balance + n)]> (_balances (store w1)))
          (store w1)))
    (events w1)
    (loops_run w1 + mint_loops env s n).

(** the events of the minting loop for the identifiers [ids] *)
Definition mint_events (to : bytes) (ids : list string) : list event :=
  map (fun tokenId =>
         mk_event "collections.mint_event"
           (mint_event to (StringBytes_stringToBytes tokenId)) [to]) ids.

(** the world right after a [set_royalties] that returns *)
Definition royalties_set (env : Env) (value : list royalty_object)
    (w : World) : World :=
  let config := Storage.config_get (contractId env) (store w) in
  mk_World
    (set_config (Some (mk_config_object (config_owner config) value))
       (store w))
    (events w ++ [mk_event "collections.royalties_event"
                    (royalties_event value) (map royalty_address value)])%list
    (loops_run w).

(** two storages with the same ledger: supply, token records, balances and
    token lists *)
Definition same_ledger (s s' : Collections) : Prop :=
  _supply s' = _supply s /\ _tokens s' = _tokens s
  /\ _balances s' = _balances s /\ _tokensOf s' = _tokensOf s.

(** bounds that every reachable storage satisfies: the supply is at most
    [MAX_SUPPLY], the stored balances add up to at most the supply, and
    every token is in the token list of its owner *)
Definition ledger_bounded (s : Collections) : Prop :=
  balance_value (Storage.supply_get s) <= Constants.MAX_SUPPLY
  /\ total_balance (_balances s) <= balance_value (Storage.supply_get s)
  /\ (forall id tok,
         _tokens s !! id = Some tok ->
         id ∈ token_id (Storage.tokensOf_get s (token_owner tok))).

(** a storage two tokens short of the maximum supply *)
Definition s_nearly_full : Collections :=
  set_supply (Some (mk_balance_object (Constants.MAX_SUPPLY - 2)))
    empty_storage.

(** the error a [mint] of [count] tokens raises in a storage whose supply
    is [supply] when [supply + count] exceeds [MAX_SUPPLY], following the
    order of the checks *)
Definition mint_supply_error (supply count : u64) : error :=
  if U64_MAX <? supply + count then could_not_add
  else if 10 <? count then mint_limit_exceeded
  else token_id_out_of_bounds.

(** ** Ledger consistency *)

(** the three counts kept for an account agree: stored balance, number of
    token records naming it as owner, length of its token list *)
Definition ledger_consistent (s : Collections) : Prop :=
  forall account,
    N.to_nat (uint64_value (balance_of s account)) = owned_count s account
    /\ owned_count s account = length (token_id (tokens_of s account)).

(** an operation other than a transfer from an account to itself *)
Definition no_self_transfer (op : operation) : Prop :=
  match op with
  | op_transfer from to _ => from <> to
  | _ => True
  end.

(** states reachable by successful calls none of which is a transfer from
    an account to itself *)
Inductive reachable_without_self_transfer : Collections -> Prop :=
| reachable_wst_empty : reachable_without_self_transfer empty_storage
| reachable_wst_call env op s r s' evs :
    reachable_without_self_transfer s ->
    no_self_transfer op ->
    call env op s = (Ok r, s', evs) ->
    reachable_without_self_transfer s'.

(** the token lists index the token records: each list is duplicate-free
    and holds exactly the identifiers of the tokens its account owns, each
    balance is the length of the list, and every identifier in use is the
    numeral of a number between 1 and the supply *)
Definition ledger_indexed (s : Collections) : Prop :=
  (forall account, NoDup (token_id (Storage.tokensOf_get s account)))
  /\ (forall account id,
         id ∈ token_id (Storage.tokensOf_get s account)
         <-> exists tok, _tokens s !! id = Some tok
                         /\ token_owner tok = account)
  /\ (forall account,
         balance_value (Storage.balances_get s account)
         = N.of_nat (length (token_id (Storage.tokensOf_get s account))))
  /\ (forall id,
         is_Some (_tokens s !! id) ->
         exists k, id = u64_toString k
                   /\ 1 <= k <= balance_value (Storage.supply_get s)).

(** ** Further errors and result worlds *)

Definition nonexistent_token : error := mk_error failure "nonexistent token".
Definition from_is_not_owner : error :=
  mk_error authorization_failure "from is not a owner".
Definition could_not_subtract : error :=
  mk_error reversion "could not subtract".
Definition could_not_divide : error := mk_error reversion "could not divide".
Definition not_in_tokens_list : error :=
  mk_error reversion
    "the sender do not own this token according to tokens list".
Definition approve_to_current_owner : error :=
  mk_error failure "approve to current owner".
Definition approved_does_not_exist : error :=
  mk_error authorization_failure "approved does not exist".
Definition approver_is_not_owner : error :=
  mk_error authorization_failure "approver_address is not owner".
Definition approve_to_operator : error :=
  mk_error authorization_failure "approve to operator_address".
Definition tokens_per_address_exceeded : error :=
  mk_error reversion "exceeds the limit of tokens per address".
(** the error of [System.requireAuthority] for [account] *)
Definition authorization_failed (account : bytes) : error :=
  mk_error authorization_failure
    ("account '" ++ Base58.encode account ++ "' authorization failed")%string.

(** the world right after an [approve] that returns *)
Definition approval_set (approver_address to token_id_bytes : bytes)
    (w : World) : World :=
  mk_World
    (set_approvals
       (<[StringBytes_bytesToString token_id_bytes
          := mk_token_approval_object to]> (_approvals (store w)))
       (store w))
    (events w ++ [mk_event "collections.token_approval_event"
                    (token_approval_event approver_address to token_id_bytes)
                    [to; approver_address]])%list
    (loops_run w).

(** the world right after a [set_approval_for_all] that returns *)
Definition operator_set (approver_address operator_address : bytes)
    (approved : bool) (w : World) : World :=
  mk_World
    (set_operators
       (<[_get_approved_operator_key operator_address approver_address
          := mk_operator_approval_object approved]> (_operators (store w)))
       (store w))
    (events w ++ [mk_event "collections.operator_approval_event"
                    (operator_approval_event approver_address
                       operator_address approved)
                    [operator_address; approver_address]])%list
    (loops_run w).

(** the world right after a [transfer_ownership] that returns *)
Definition ownership_transferred (env : Env) (new_owner : bytes) (w : World)
  : World :=
  let config := Storage.config_get (contractId env) (store w) in
  mk_World
    (set_config
       (Some (mk_config_object new_owner (config_royalties config)))
       (store w))
    (events w ++ [mk_event "collections.owner_event"
                    (owner_event (config_owner config) new_owner)
                    [config_owner config; new_owner]])%list
    (loops_run w).

(** the approver may approve a token owned by [token_owner]: it is the
    owner, or an operator the owner has approved *)
Definition may_approve (s : Collections) (approver_address owner : bytes)
  : bool :=
  Arrays_equal owner approver_address
  || bool_value (is_approved_for_all s owner approver_address).

(** what holds of the approvals, the identifiers in use and the royalty
    schedule in every reachable state *)
Definition registry_wellformed (s : Collections) : Prop :=
  (forall id,
      is_Some (_tokens s !! id)
      <-> exists k, id = u64_toString k
                    /\ 1 <= k <= balance_value (Storage.supply_get s))
  /\ (forall id approval,
         _approvals s !! id = Some approval ->
         exists token, _tokens s !! id = Some token
                       /\ token_owner token <> approval_address approval)
  /\ royalties_sum (default [] (config_royalties <$> _config s)) <= 10000.

(** the operation writes the configuration *)
Definition writes_config (op : operation) : bool :=
  match op with
  | op_set_royalties _ | op_transfer_ownership _ => true
  | _ => false
  end.

(** a host where [who] calls and holds the authority of every account in
    [granted] *)
Definition host_with (who : bytes) (granted : list bytes) : Env :=
  mk_Env [] who (fun account => bool_decide (account ∈ granted)) 89 1 1.

(** a host like [host who] whose compute cost (1000) makes the footprint of
    a mint exceed any price, so that the busy loop does not run *)
Definition quiet_host (who : bytes) : Env :=
  mk_Env [] who (fun account => Arrays_equal account who) 1000 1 1.

(** which storage spaces an operation may write *)
Definition writes_ledger (op : operation) : bool :=
  match op with
  | op_mint _ _ | op_transfer _ _ _ => true
  | _ => false
  end.
Definition writes_approvals (op : operation) : bool :=
  match op with
  | op_approve _ _ _ | op_transfer _ _ _ => true
  | _ => false
  end.
Definition writes_operators (op : operation) : bool :=
  match op with
  | op_set_approval_for_all _ _ _ => true
  | _ => false
  end.

(** the number of events a call of the operation emits when it returns *)
Definition events_emitted (op : operation) : nat :=
  match op with
  | op_mint _ n => N.to_nat n
  | op_burn _ => 0%nat
  | _ => 1%nat
  end.

(** alice mints tokens 1 and 2 and transfers token 1 to herself once *)
Definition s_two_minted : Collections :=
  store (snd (mint (quiet_host alice) alice 2 (enter empty_storage))).
Definition s_self_once : Collections :=
  store (snd (transfer (host alice) alice alice token_1 (enter s_two_minted))).

(** a storage no run produces: token 1 is recorded as alice's and her
    balance is 1, but her token list is empty *)
Definition s_unlisted : Collections :=
  mk_Collections (Some (mk_balance_object 1))
    {[ "1" := mk_token_object alice ]}
    {[ alice := mk_balance_object 1 ]}
    ∅ ∅ ∅ None None.

(** * Properties *)

(** ** Stepping through monadic code *)

Lemma bind_Ok {A B} (m : M A) (k : A -> M B) w b w' :
  bind m k w = (Ok b, w') ->
  exists a w1, m w = (Ok a, w1) /\ k a w1 = (Ok b, w').
Proof.
  unfold bind. destruct (m w) as [[a|e] w1]; [eauto | discriminate].
Qed.

Lemma bind_run {A B} (m : M A) (k : A -> M B) w a w1 :
  m w = (Ok a, w1) -> bind m k w = k a w1.
Proof. unfold bind. by intros ->. Qed.

Lemma bind_Err {A B} (m : M A) (k : A -> M B) w e w1 :
  m w = (Err e, w1) -> bind m k w = (Err e, w1).
Proof. unfold bind. by intros ->. Qed.

Lemma bind_gets {A B} (f : Collections -> A) (k : A -> M B) w :
  bind (gets f) k w = k (f (store w)) w.
Proof. done. Qed.

Lemma bind_modify {B} (f : Collections -> Collections) (k : unit -> M B) w :
  bind (modify f) k w
  = k tt (mk_World (f (store w)) (events w) (loops_run w)).
Proof. done. Qed.

Lemma bind_event {B} nm d imp (k : unit -> M B) w :
  bind (System.event nm d imp) k w
  = k tt (mk_World (store w) (events w ++ [mk_event nm d imp])%list
            (loops_run w)).
Proof. done. Qed.

Lemma bind_ret {A B} (a : A) (k : A -> M B) w : bind (ret a) k w = k a w.
Proof. done. Qed.

Lemma require_Ok cond msg c w r w' :
  System.require cond msg c w = (Ok r, w') -> cond = true /\ w' = w.
Proof.
  unfold System.require, ret, exit. destruct cond; [|discriminate].
  intros [= _ <-]. done.
Qed.

Lemma require_true msg c w : System.require true msg c w = (Ok tt, w).
Proof. done. Qed.

Lemma require_false msg c w :
  System.require false msg c w = (Err (mk_error c msg), w).
Proof. done. Qed.

Lemma add_Ok a b w v w' :
  SafeMath.add a b w = (Ok v, w') ->
  a + b <= U64_MAX /\ v = a + b /\ w' = w.
Proof.
  unfold SafeMath.add, ret, exit.
  destruct (N.leb_spec (a + b) U64_MAX); [|discriminate].
  intros [= <- <-]. done.
Qed.

Lemma add_run a b w :
  a + b <= U64_MAX -> SafeMath.add a b w = (Ok (a + b), w).
Proof.
  intros H. unfold SafeMath.add, ret.
  destruct (N.leb_spec (a + b) U64_MAX); [done | lia].
Qed.

Lemma add_overflow a b w :
  U64_MAX < a + b -> SafeMath.add a b w = (Err could_not_add, w).
Proof.
  intros H. unfold SafeMath.add, exit.
  destruct (N.leb_spec (a + b) U64_MAX); [lia | done].
Qed.

Lemma sub_Ok a b w v w' :
  SafeMath.sub a b w = (Ok v, w') -> b <= a /\ v = a - b /\ w' = w.
Proof.
  unfold SafeMath.sub, ret, exit.
  destruct (N.leb_spec b a); [|discriminate].
  intros [= <- <-]. done.
Qed.

Lemma sub_run a b w : b <= a -> SafeMath.sub a b w = (Ok (a - b), w).
Proof.
  intros H. unfold SafeMath.sub, ret.
  destruct (N.leb_spec b a); [done | lia].
Qed.

Lemma mul_Ok a b w v w' :
  SafeMath.mul a b w = (Ok v, w') ->
  a * b <= U64_MAX /\ v = a * b /\ w' = w.
Proof.
  unfold SafeMath.mul, ret, exit.
  destruct (N.leb_spec (a * b) U64_MAX); [|discriminate].
  intros [= <- <-]. done.
Qed.

Lemma mul_run a b w :
  a * b <= U64_MAX -> SafeMath.mul a b w = (Ok (a * b), w).
Proof.
  intros H. unfold SafeMath.mul, ret.
  destruct (N.leb_spec (a * b) U64_MAX); [done | lia].
Qed.

Lemma div_Ok a b w v w' :
  SafeMath.div a b w = (Ok v, w') -> b <> 0 /\ v = a / b /\ w' = w.
Proof.
  unfold SafeMath.div, ret, exit.
  destruct (N.eqb_spec b 0); [discriminate|].
  intros [= <- <-]. done.
Qed.

Lemma div_run a b w : b <> 0 -> SafeMath.div a b w = (Ok (a / b), w).
Proof.
  intros H. unfold SafeMath.div, ret.
  destruct (N.eqb_spec b 0); [done | done].
Qed.

Lemma Arrays_equal_true a b : Arrays_equal a b = true <-> a = b.
Proof. unfold Arrays_equal. apply bool_decide_eq_true. Qed.

Lemma Arrays_equal_false a b : Arrays_equal a b = false <-> a <> b.
Proof. unfold Arrays_equal. apply bool_decide_eq_false. Qed.

(** Decompose a hypothesis saying that a sequence of steps returned. *)
Ltac step_Ok H :=
  lazymatch type of H with
  | bind (gets _) _ _ = (Ok _, _) => rewrite bind_gets in H
  | bind (modify _) _ _ = (Ok _, _) => rewrite bind_modify in H
  | bind (System.event _ _ _) _ _ = (Ok _, _) => rewrite bind_event in H
  | bind (ret _) _ _ = (Ok _, _) => rewrite bind_ret in H
  | bind _ _ _ = (Ok _, _) =>
      let a := fresh "a" in
      let w1 := fresh "w" in
      let H1 := fresh "Hstep" in
      apply bind_Ok in H as (a & w1 & H1 & H);
      first
        [ apply require_Ok in H1 as [H1 ->]
        | apply add_Ok in H1 as (H1 & -> & ->)
        | apply sub_Ok in H1 as (H1 & -> & ->)
        | apply mul_Ok in H1 as (H1 & -> & ->)
        | apply div_Ok in H1 as (H1 & -> & ->)
        | idtac ]
  end.

(** ** transfer *)

Lemma transfer_Ok env from to tb w r w' :
  transfer env from to tb w = (Ok r, w') ->
  let s := store w in
  let tid := StringBytes_bytesToString tb in
  exists token,
    Storage.tokens_get s tid = Some token /\
    token_owner token = from /\
    (caller env = from \/
     transfer_isTokenApproved env s tid token from = true) /\
    1 <= balance_value (Storage.balances_get s from) /\
    balance_value (Storage.balances_get s to) + 1 <= U64_MAX /\
    (0 <= indexOf (token_id (Storage.tokensOf_get s from)) tid)%Z /\
    w' = transferred from to tb w.
Proof.
  intros H s tid. unfold transfer in H.
  unfold Storage.approvals_remove, Storage.tokensOf_put, Storage.tokens_put,
    Storage.balances_put in H.
  step_Ok H. fold tid in H.
  destruct (Storage.tokens_get (store w) tid) as [token|] eqn:Htok.
  2:{ step_Ok H. discriminate. }
  exists token. step_Ok H. clear Hstep.
  step_Ok H. apply Arrays_equal_true in Hstep.
  step_Ok H.
  assert (Hauth : (caller env = from \/
     transfer_isTokenApproved env s tid token from = true) /\ w0 = w).
  { destruct (Arrays_equal (caller env) from) eqn:Hc; simpl in Hstep0.
    - apply Arrays_equal_true in Hc. inversion Hstep0. auto.
    - step_Ok Hstep0. apply require_Ok in Hstep0 as [? ->]. auto. }
  destruct Hauth as [Hauth ->]. clear Hstep0.
  repeat step_Ok H. simpl in *.
  apply Z.leb_le in Hstep2.
  inversion H; subst w'.
  repeat split; try done.
Qed.

Lemma transfer_run env from to tb w token :
  let s := store w in
  let tid := StringBytes_bytesToString tb in
  Storage.tokens_get s tid = Some token ->
  token_owner token = from ->
  (caller env = from \/
   transfer_isTokenApproved env s tid token from = true) ->
  1 <= balance_value (Storage.balances_get s from) ->
  balance_value (Storage.balances_get s to) + 1 <= U64_MAX ->
  (0 <= indexOf (token_id (Storage.tokensOf_get s from)) tid)%Z ->
  transfer env from to tb w = (Ok mk_empty_object, transferred from to tb w).
Proof.
  intros s tid Htok Hown Hauth Hbf Hbt Hidx. unfold transfer.
  rewrite bind_gets. fold s tid. rewrite Htok.
  rewrite (bind_run _ _ _ tt w) by done.
  apply Arrays_equal_true in Hown. rewrite Hown.
  rewrite (bind_run _ _ _ tt w) by done.
  rewrite (bind_run _ _ _ tt w).
  2:{ destruct Hauth as [Hc|Ha].
      - apply Arrays_equal_true in Hc. by rewrite Hc.
      - destruct (Arrays_equal (caller env) from); [done|].
        simpl. rewrite bind_gets. fold s tid. by rewrite Ha. }
  unfold Storage.approvals_remove, Storage.tokensOf_put, Storage.tokens_put,
    Storage.balances_put.
  rewrite bind_modify, bind_gets. simpl.
  rewrite (bind_run _ _ _ _ _ (sub_run _ _ _ Hbf)).
  rewrite bind_gets. simpl.
  rewrite (bind_run _ _ _ _ _ (add_run _ _ _ Hbt)).
  rewrite !bind_gets. simpl. fold s tid.
  change (Storage.tokensOf_get (set_approvals (delete tid (_approvals s)) s))
    with (Storage.tokensOf_get s).
  apply Z.leb_le in Hidx. rewrite Hidx.
  rewrite (bind_run _ _ _ tt _) by done.
  done.
Qed.

(** The authorisation block of [transfer] in terms of the public queries. *)
Lemma transfer_isTokenApproved_queries env s tb token from :
  token_owner token = from ->
  transfer_isTokenApproved env s (StringBytes_bytesToString tb) token from
  = true
  <-> (address_value (get_approved s tb) = Some (caller env)
       \/ bool_value (is_approved_for_all s from (caller env)) = true
       \/ checkAuthority env from = true).
Proof.
  intros <-. unfold transfer_isTokenApproved, get_approved, is_approved_for_all.
  destruct (Storage.approvals_get s (StringBytes_bytesToString tb))
    as [approval|] eqn:Ha; simpl.
  - destruct (Arrays_equal (approval_address approval) (caller env)) eqn:He;
      simpl.
    + apply Arrays_equal_true in He. rewrite He. tauto.
    + apply Arrays_equal_false in He.
      destruct (Storage.operators_get s _) as [op|]; simpl.
      * destruct (operator_approved op); simpl;
          [tauto | split; [tauto | intros [[=]|[|]]; congruence]].
      * split; [tauto | intros [[=]|[|]]; congruence].
  - destruct (Storage.operators_get s _) as [op|]; simpl.
    + destruct (operator_approved op); simpl;
        [tauto | split; [tauto | intros [|[|]]; congruence]].
    + split; [tauto | intros [|[|]]; congruence].
Qed.

Lemma call_Err env op s e w :
  run env op (enter s) = (Err e, w) -> call env op s = (Err e, s, []).
Proof. unfold call. by intros ->. Qed.

Lemma reachable_s_minted : reachable s_minted.
Proof.
  eapply (reachable_call (host alice) (op_mint alice 1)).
  - apply reachable_empty.
  - vm_compute. reflexivity.
Qed.

(** C3. A transfer of an existing token owned by [from], requested by a
    caller that is not [from], is not the token's approved account, is not
    an approved operator of [from] and is denied by the authority check,
    aborts with the authorization failure "from has not authorized transfer"
    before any write: the world at the abort is the world at entry, and the
    transaction leaves the storage as it was and emits no event. *)
Theorem C3_transfer_unauthorized_fails env w from to tb :
  address_value (owner_of (store w) tb) = Some from ->
  caller env <> from ->
  address_value (get_approved (store w) tb) <> Some (caller env) ->
  bool_value (is_approved_for_all (store w) from (caller env)) = false ->
  checkAuthority env from = false ->
  transfer env from to tb w = (Err transfer_not_authorized, w)
  /\ call env (op_transfer from to tb) (store w)
     = (Err transfer_not_authorized, store w, []).
Proof.
  intros Hown Hcaller Happr Hop Hauth.
  assert (Hgen : forall w0, store w0 = store w ->
            transfer env from to tb w0 = (Err transfer_not_authorized, w0)).
  { intros w0 Hw0. unfold owner_of in Hown. rewrite <- Hw0 in *.
    destruct (Storage.tokens_get (store w0) (StringBytes_bytesToString tb))
      as [token|] eqn:Htok; [|discriminate].
    simpl in Hown. injection Hown as Hown.
    unfold transfer. rewrite bind_gets, Htok.
    rewrite (bind_run _ _ _ tt w0) by done.
    pose proof Hown as Heq. apply Arrays_equal_true in Heq. rewrite Heq.
    rewrite (bind_run _ _ _ tt w0) by done.
    apply Arrays_equal_false in Hcaller. rewrite Hcaller. simpl.
    apply bind_Err. rewrite bind_gets.
    destruct (transfer_isTokenApproved env (store w0)
                (StringBytes_bytesToString tb) token from) eqn:Hb; [|done].
    apply transfer_isTokenApproved_queries in Hb; [|done].
    destruct Hb as [Hb|[Hb|Hb]]; congruence. }
  split; [by apply Hgen|].
  eapply call_Err. simpl. by apply (Hgen (enter (store w))).
Qed.

(** C3 at a concrete input: bob, with no approval and no authority, tries to
    move alice's token 1 to carol. *)
Lemma C3_transfer_unauthorized_fails_witness :
  transfer (host_no_authority bob) alice carol token_1 (enter s_minted)
  = (Err transfer_not_authorized, enter s_minted)
  /\ call (host_no_authority bob) (op_transfer alice carol token_1) s_minted
     = (Err transfer_not_authorized, s_minted, []).
Proof.
  apply (C3_transfer_unauthorized_fails (host_no_authority bob)
           (enter s_minted) alice carol token_1).
  - vm_compute. reflexivity.
  - vm_compute. discriminate.
  - vm_compute. discriminate.
  - vm_compute. reflexivity.
  - vm_compute. reflexivity.
Defined.

(** C4. After every transfer that returns, the single-token approval of the
    transferred token is absent and the token's owner is the recipient. In
    particular, when [A] approves token [T] to [B] and [B] then transfers
    [T] from [A] to [C], afterwards [get_approved T] is absent and
    [owner_of T] is [C]. *)
Theorem C4_transfer_clears_approval :
  (forall env from to tb w r w',
      transfer env from to tb w = (Ok r, w') ->
      address_value (get_approved (store w') tb) = None
      /\ address_value (owner_of (store w') tb) = Some to)
  /\ (forall envA envB A B C T w r1 wa r2 wb,
         approve envA A B T w = (Ok r1, wa) ->
         caller envB = B ->
         transfer envB A C T (enter (store wa)) = (Ok r2, wb) ->
         address_value (get_approved (store wb) T) = None
         /\ address_value (owner_of (store wb) T) = Some C).
Proof.
  assert (Hgen : forall env from to tb w r w',
      transfer env from to tb w = (Ok r, w') ->
      address_value (get_approved (store w') tb) = None
      /\ address_value (owner_of (store w') tb) = Some to).
  { intros env from to tb w r w' H.
    apply transfer_Ok in H as (token & _ & _ & _ & _ & _ & _ & ->).
    unfold get_approved, owner_of, Storage.approvals_get, Storage.tokens_get,
      transferred. simpl.
    by rewrite lookup_delete_eq, lookup_insert_eq. }
  split; [exact Hgen|].
  intros envA envB A B C T w r1 wa r2 wb _ _ H. by eapply Hgen.
Qed.

(** C4 at a concrete input: alice approves token 1 to bob, bob transfers it
    from alice to carol. *)
Lemma C4_transfer_clears_approval_witness :
  address_value (get_approved s_approved token_1) = Some bob
  /\ (let wb := snd (transfer (host bob) alice carol token_1
                       (enter s_approved)) in
      address_value (get_approved (store wb) token_1) = None
      /\ address_value (owner_of (store wb) token_1) = Some carol).
Proof.
  split; [vm_compute; reflexivity|].
  destruct C4_transfer_clears_approval as [_ Hscenario].
  apply (Hscenario (host alice) (host bob) alice bob carol token_1
           (enter s_minted) mk_empty_object
           (snd (approve (host alice) alice bob token_1 (enter s_minted)))
           mk_empty_object).
  - vm_compute. reflexivity.
  - reflexivity.
  - vm_compute. reflexivity.
Defined.

(** C9. [burn] returns the empty acknowledgment for every argument in every
    world and changes nothing: the storage (supply, tokens, balances, token
    lists, approvals, operator approvals, configuration, mana price) and the
    event log are those at entry, also at the level of the transaction. *)
Theorem C9_burn_is_noop (env : Env) (token_id : bytes) (w : World)
    (s : Collections) :
  burn token_id w = (Ok mk_empty_object, w)
  /\ call env (op_burn token_id) s = (Ok mk_empty_object, s, []).
Proof. split; reflexivity. Qed.

(** ** mint *)

Lemma mint_token_run to index w :
  mint_token to index w = (Ok tt, mint_token_done to (u64_toString index) w).
Proof. reflexivity. Qed.

Lemma for_from_mint_token to k index w :
  for_from k index (mint_token to) w
  = (Ok tt, mint_loop_done to (minted_ids index k) w).
Proof.
  revert index w. induction k as [|k IH]; intros index w; [done|].
  simpl for_from. rewrite (bind_run _ _ _ _ _ (mint_token_run to index w)).
  rewrite IH. done.
Qed.

Lemma busy_loop_run n w :
  N.iter n busy_iteration w
  = mk_World (store w) (events w) (loops_run w + n).
Proof.
  induction n as [|n IH] using N.peano_ind.
  - simpl. rewrite N.add_0_r. by destruct w.
  - rewrite N.iter_succ, IH. unfold busy_iteration. simpl.
    f_equal. lia.
Qed.

Lemma consumeMana_Ok m c w r w' :
  _consumeMana m c w = (Ok r, w') ->
  c <> 0 /\ w' = mk_World (store w) (events w) (loops_run w + m / c / 14).
Proof.
  unfold _consumeMana. intros H. step_Ok H. step_Ok H.
  inversion H. rewrite busy_loop_run. done.
Qed.

Lemma consumeMana_run m c w :
  c <> 0 ->
  _consumeMana m c w
  = (Ok tt, mk_World (store w) (events w) (loops_run w + m / c / 14)).
Proof.
  intros Hc. unfold _consumeMana.
  rewrite (bind_run _ _ _ _ _ (div_run _ _ _ Hc)).
  rewrite (bind_run _ _ _ _ _ (div_run _ 14 _ ltac:(done))).
  by rewrite busy_loop_run.
Qed.

Lemma remaining_Ok env n w v w' :
  mint_remainingManaToConsume env n w = (Ok v, w') ->
  mint_manaConsumed env <= U64_MAX /\ mint_totalMana (store w) n <= U64_MAX
  /\ v = mint_remaining env (store w) n /\ w' = w.
Proof.
  unfold mint_remainingManaToConsume. intros H. repeat step_Ok H.
  injection H as <- <-.
  unfold mint_remaining, mint_manaConsumed, mint_totalMana.
  repeat split; done.
Qed.

Lemma remaining_run env n w :
  mint_manaConsumed env <= U64_MAX ->
  mint_totalMana (store w) n <= U64_MAX ->
  mint_remainingManaToConsume env n w
  = (Ok (mint_remaining env (store w) n), w).
Proof.
  unfold mint_manaConsumed, mint_totalMana. intros Hc Ht.
  unfold mint_remainingManaToConsume.
  assert (H1 : 1123019 * compute_bandwidth_cost env <= U64_MAX) by lia.
  assert (H2 : 282 * network_bandwidth_cost env <= U64_MAX) by lia.
  assert (H3 : 1123019 * compute_bandwidth_cost env
               + 282 * network_bandwidth_cost env <= U64_MAX) by lia.
  assert (H4 : 66 * disk_storage_cost env <= U64_MAX) by lia.
  rewrite (bind_run _ _ _ _ _ (mul_run _ _ _ H1)).
  rewrite (bind_run _ _ _ _ _ (mul_run _ _ _ H2)).
  rewrite (bind_run _ _ _ _ _ (add_run _ _ _ H3)).
  rewrite (bind_run _ _ _ _ _ (mul_run _ _ _ H4)).
  rewrite (bind_run _ _ _ _ _ (add_run _ _ _ Hc)).
  rewrite bind_gets.
  rewrite (bind_run _ _ _ _ _ (mul_run _ _ _ Ht)).
  done.
Qed.

Lemma mint_loop_done_frame to ids w :
  let w' := mint_loop_done to ids w in
  _supply (store w') = _supply (store w)
  /\ _balances (store w') = _balances (store w)
  /\ _approvals (store w') = _approvals (store w)
  /\ _operators (store w') = _operators (store w)
  /\ _config (store w') = _config (store w)
  /\ _manaCost (store w') = _manaCost (store w)
  /\ loops_run w' = loops_run w.
Proof.
  revert w. induction ids as [|tokenId ids IH]; intros w; [done|].
  simpl. specialize (IH (mint_token_done to tokenId w)).
  simpl in IH. exact IH.
Qed.

Lemma mint_Ok env to n w r w' :
  mint env to n w = (Ok r, w') ->
  let s := store w in
  let supply := balance_value (Storage.supply_get s) in
  let balance := balance_value (Storage.balances_get s to) in
  n <= 10 /\ 0 < supply + n /\ supply + n <= Constants.MAX_SUPPLY
  /\ balance + n <= Constants.MAX_SUPPLY
  /\ mint_manaConsumed env <= U64_MAX
  /\ mint_totalMana s n <= U64_MAX
  /\ compute_bandwidth_cost env <> 0
  /\ w' = minted env to n w.
Proof.
  intros H s supply balance. unfold mint in H.
  unfold Storage.balances_put, Storage.supply_put in H.
  do 3 step_Ok H. fold s supply balance in H.
  do 5 step_Ok H.
  apply N.leb_le in Hstep0. apply N.ltb_lt in Hstep1. apply N.leb_le in Hstep2.
  step_Ok H. unfold for_u64_le in Hstep4.
  rewrite for_from_mint_token in Hstep4.
  apply (f_equal snd) in Hstep4. simpl in Hstep4. subst w0.
  replace (N.to_nat (N.succ (supply + n) - (supply + 1))) with (N.to_nat n)
    in H by lia.
  do 5 step_Ok H. apply N.leb_le in Hstep5.
  step_Ok H. apply remaining_Ok in Hstep7 as (Hc & Ht & -> & ->).
  step_Ok H. apply consumeMana_Ok in Hstep7 as (Hcc & ->).
  apply (f_equal snd) in H. simpl in H. subst w'.
  destruct (mint_loop_done_frame to (minted_ids (supply + 1) (N.to_nat n)) w)
    as (_ & _ & _ & _ & _ & Hmana & _).
  unfold mint_totalMana, mint_loops, mint_remaining, mint_totalMana,
    Storage.manaCost_get in *.
  simpl in *. rewrite Hmana in *.
  repeat split; try done.
Qed.

Lemma mint_run env to n w :
  let s := store w in
  let supply := balance_value (Storage.supply_get s) in
  let balance := balance_value (Storage.balances_get s to) in
  n <= 10 -> 0 < supply + n -> supply + n <= Constants.MAX_SUPPLY ->
  balance + n <= Constants.MAX_SUPPLY ->
  mint_manaConsumed env <= U64_MAX ->
  mint_totalMana s n <= U64_MAX ->
  compute_bandwidth_cost env <> 0 ->
  mint env to n w = (Ok mk_empty_object, minted env to n w).
Proof.
  intros s supply balance Hn Hpos Hmax Hbal Hc Ht Hcc.
  assert (HM : Constants.MAX_SUPPLY < U64_MAX) by done.
  unfold mint. rewrite !bind_gets. fold s supply balance.
  assert (H1 : supply + n <= U64_MAX) by lia.
  rewrite (bind_run _ _ _ _ _ (add_run _ _ _ H1)).
  apply N.leb_le in Hn. rewrite Hn, bind_run with (a := tt) (w1 := w) by done.
  apply N.ltb_lt in Hpos.
  rewrite Hpos, bind_run with (a := tt) (w1 := w) by done.
  pose proof Hmax as Hmax'. apply N.leb_le in Hmax'.
  rewrite Hmax', bind_run with (a := tt) (w1 := w) by done.
  assert (H2 : supply + 1 <= U64_MAX) by lia.
  rewrite (bind_run _ _ _ _ _ (add_run _ _ _ H2)).
  unfold for_u64_le.
  rewrite (bind_run _ _ _ _ _ (for_from_mint_token _ _ _ _)).
  replace (N.to_nat (N.succ (supply + n) - (supply + 1))) with (N.to_nat n)
    by lia.
  assert (H3 : balance + n <= U64_MAX) by lia.
  rewrite (bind_run _ _ _ _ _ (add_run _ _ _ H3)).
  pose proof Hbal as Hbal'. apply N.leb_le in Hbal'.
  rewrite Hbal'. rewrite (bind_run _ _ _ tt _) by done.
  rewrite (bind_run _ _ _ _ _ (add_run _ _ _ H1)).
  unfold Storage.balances_put, Storage.supply_put.
  rewrite !bind_modify.
  destruct (mint_loop_done_frame to (minted_ids (supply + 1) (N.to_nat n)) w)
    as (_ & _ & _ & _ & _ & Hmana & _).
  erewrite bind_run; cycle 1.
  { apply remaining_run; [done|].
    unfold mint_totalMana, Storage.manaCost_get in *. simpl.
    by rewrite Hmana. }
  rewrite (bind_run _ _ _ _ _ (consumeMana_run _ _ _ Hcc)).
  unfold ret, minted. fold s supply balance. f_equal. f_equal. simpl.
  unfold mint_loops, mint_remaining, mint_totalMana, Storage.manaCost_get.
  simpl. by rewrite Hmana.
Qed.

Lemma mint_overflow env to n w :
  U64_MAX < balance_value (Storage.supply_get (store w)) + n ->
  mint env to n w = (Err could_not_add, w).
Proof.
  intros H. unfold mint. rewrite !bind_gets.
  apply bind_Err. by apply add_overflow.
Qed.

Lemma mint_over_limit env to n w :
  balance_value (Storage.supply_get (store w)) + n <= U64_MAX ->
  10 < n ->
  mint env to n w = (Err mint_limit_exceeded, w).
Proof.
  intros H Hn. unfold mint. rewrite !bind_gets.
  rewrite (bind_run _ _ _ _ _ (add_run _ _ _ H)).
  apply bind_Err. apply N.leb_gt in Hn. by rewrite Hn.
Qed.

Lemma mint_out_of_bounds env to n w :
  n <= 10 ->
  balance_value (Storage.supply_get (store w)) + n = 0
  \/ Constants.MAX_SUPPLY < balance_value (Storage.supply_get (store w)) + n
     <= U64_MAX ->
  mint env to n w = (Err token_id_out_of_bounds, w).
Proof.
  intros Hn H. unfold mint. rewrite !bind_gets.
  assert (H1 : balance_value (Storage.supply_get (store w)) + n <= U64_MAX).
  { destruct H as [->|[_ H]]; done. }
  rewrite (bind_run _ _ _ _ _ (add_run _ _ _ H1)).
  apply N.leb_le in Hn. rewrite Hn, bind_run with (a := tt) (w1 := w) by done.
  destruct H as [H|[H _]].
  - apply bind_Err. by rewrite H.
  - assert (Hpos : 0 < balance_value (Storage.supply_get (store w)) + n).
    { unfold Constants.MAX_SUPPLY in H. lia. }
    apply N.ltb_lt in Hpos.
    rewrite Hpos, bind_run with (a := tt) (w1 := w) by done.
    apply bind_Err. apply N.leb_gt in H. by rewrite H.
Qed.

Lemma mint_loop_done_tokens to ids w :
  _tokens (store (mint_loop_done to ids w))
  = fold_left (fun m tokenId => <[tokenId := mk_token_object to]> m) ids
      (_tokens (store w)).
Proof.
  revert w. induction ids as [|tokenId ids IH]; intros w; [done|].
  simpl. by rewrite IH.
Qed.

Lemma mint_loop_done_tokensOf to ids w :
  token_id (Storage.tokensOf_get (store (mint_loop_done to ids w)) to)
  = (token_id (Storage.tokensOf_get (store w) to) ++ ids)%list.
Proof.
  revert w. induction ids as [|tokenId ids IH]; intros w.
  - simpl. by rewrite app_nil_r.
  - simpl. rewrite IH. unfold mint_token_done, Storage.tokensOf_get. simpl.
    rewrite lookup_insert_eq. simpl. by rewrite <- app_assoc.
Qed.

Lemma mint_loop_done_tokensOf_other to ids w account :
  account <> to ->
  _tokensOf (store (mint_loop_done to ids w)) !! account
  = _tokensOf (store w) !! account.
Proof.
  intros Hne. revert w. induction ids as [|tokenId ids IH]; intros w; [done|].
  simpl. rewrite IH. unfold mint_token_done. simpl.
  by rewrite lookup_insert_ne.
Qed.

Lemma mint_loop_done_events to ids w :
  events (mint_loop_done to ids w) = (events w ++ mint_events to ids)%list.
Proof.
  revert w. induction ids as [|tokenId ids IH]; intros w.
  - simpl. by rewrite app_nil_r.
  - simpl. rewrite IH. simpl. by rewrite <- app_assoc.
Qed.

Section Minted.

Variables (env : Env) (to : bytes) (n : u64) (w : World).

Let supply := balance_value (Storage.supply_get (store w)).
Let ids := minted_ids (supply + 1) (N.to_nat n).

Lemma minted_supply :
  _supply (store (minted env to n w))
  = Some (mk_balance_object (supply + n)).
Proof. reflexivity. Qed.

Lemma minted_balances :
  _balances (store (minted env to n w))
  = <[to := mk_balance_object
              (balance_value (Storage.balances_get (store w) to) + n)]>
      (_balances (store w)).
Proof.
  destruct (mint_loop_done_frame to ids w) as (_ & Hb & _).
  unfold minted. simpl. fold supply ids. by rewrite Hb.
Qed.

Lemma minted_tokens :
  _tokens (store (minted env to n w))
  = fold_left (fun m tokenId => <[tokenId := mk_token_object to]> m) ids
      (_tokens (store w)).
Proof. apply (mint_loop_done_tokens to ids w). Qed.

Lemma minted_tokensOf :
  token_id (Storage.tokensOf_get (store (minted env to n w)) to)
  = (token_id (Storage.tokensOf_get (store w) to) ++ ids)%list.
Proof. apply (mint_loop_done_tokensOf to ids w). Qed.

Lemma minted_tokensOf_other account :
  account <> to ->
  _tokensOf (store (minted env to n w)) !! account
  = _tokensOf (store w) !! account.
Proof. apply (mint_loop_done_tokensOf_other to ids w). Qed.

Lemma minted_events :
  events (minted env to n w) = (events w ++ mint_events to ids)%list.
Proof. apply (mint_loop_done_events to ids w). Qed.

Lemma minted_loops_run :
  loops_run (minted env to n w)
  = loops_run w + mint_loops env (store w) n.
Proof.
  destruct (mint_loop_done_frame to ids w) as (_ & _ & _ & _ & _ & _ & Hl).
  unfold minted. simpl. fold supply ids. by rewrite Hl.
Qed.

End Minted.

(** C5. Whenever [mint X 3] returns in a world whose supply is [s], the
    three token records it creates are those of the decimal numerals of
    [s+1], [s+2] and [s+3], each owned by [X] (and one mint event is emitted
    for each, in that order); afterwards [tokens_of X] is [X]'s previous list
    followed by these three identifiers in assignment order, and
    [balance_of X] is its previous value plus 3. *)
Theorem C5_mint_round_trip env X w r w' :
  mint env X 3 w = (Ok r, w') ->
  let s := uint64_value (total_supply (store w)) in
  let id1 := u64_toString (s + 1) in
  let id2 := u64_toString (s + 2) in
  let id3 := u64_toString (s + 3) in
  _tokens (store w')
  = <[id3 := mk_token_object X]>
      (<[id2 := mk_token_object X]>
         (<[id1 := mk_token_object X]> (_tokens (store w))))
  /\ events w' = (events w ++ mint_events X [id1; id2; id3])%list
  /\ token_id (tokens_of (store w') X)
     = (token_id (tokens_of (store w) X) ++ [id1; id2; id3])%list
  /\ uint64_value (balance_of (store w') X)
     = uint64_value (balance_of (store w) X) + 3
  /\ address_value (owner_of (store w') (StringBytes_stringToBytes id1))
     = Some X
  /\ address_value (owner_of (store w') (StringBytes_stringToBytes id2))
     = Some X
  /\ address_value (owner_of (store w') (StringBytes_stringToBytes id3))
     = Some X.
Proof.
  intros H s id1 id2 id3.
  apply mint_Ok in H as (_ & _ & _ & _ & _ & _ & _ & ->).
  assert (Hids : minted_ids
                   (balance_value (Storage.supply_get (store w)) + 1)
                   (N.to_nat 3) = [id1; id2; id3]).
  { change (N.to_nat 3) with 3%nat. unfold minted_ids. simpl.
    change (balance_value (Storage.supply_get (store w))) with s.
    unfold id1, id2, id3. repeat f_equal; lia. }
  assert (Htok : _tokens (store (minted env X 3 w))
     = <[id3 := mk_token_object X]>
      (<[id2 := mk_token_object X]>
         (<[id1 := mk_token_object X]> (_tokens (store w))))).
  { by rewrite minted_tokens, Hids. }
  unfold tokens_of, balance_of, owner_of, Storage.tokens_get,
    Storage.balances_get.
  rewrite minted_tokensOf, minted_events, minted_balances, Hids, Htok.
  unfold StringBytes_bytesToString, StringBytes_stringToBytes.
  rewrite !string_of_list_byte_of_string.
  split; [done|]. split; [done|]. split; [done|].
  split; [by rewrite lookup_insert_eq|].
  assert (Hl3 : forall m : gmap string token_object,
             <[id3 := mk_token_object X]> m !! id3 = Some (mk_token_object X))
    by (intros; apply lookup_insert_eq).
  assert (Hl2 : forall m : gmap string token_object,
             <[id3 := mk_token_object X]> (<[id2 := mk_token_object X]> m)
               !! id2 = Some (mk_token_object X)).
  { intros m. rewrite lookup_insert. case_decide; [done|].
    apply lookup_insert_eq. }
  assert (Hl1 : forall m : gmap string token_object,
             <[id3 := mk_token_object X]>
               (<[id2 := mk_token_object X]> (<[id1 := mk_token_object X]> m))
               !! id1 = Some (mk_token_object X)).
  { intros m. rewrite !lookup_insert. repeat case_decide; done. }
  by rewrite Hl1, Hl2, Hl3.
Qed.

(** C5 at a concrete input: alice, who holds token 1, mints three more. *)
Lemma C5_mint_round_trip_witness :
  let w' := snd (mint (host alice) alice 3 (enter s_minted)) in
  token_id (tokens_of (store w') alice) = ["1"; "2"; "3"; "4"]
  /\ uint64_value (balance_of (store w') alice) = 4.
Proof.
  intros w'.
  destruct (C5_mint_round_trip (host alice) alice (enter s_minted)
              mk_empty_object w') as (_ & _ & Hl & Hb & _).
  - vm_compute. reflexivity.
  - split; [exact Hl | exact Hb].
Defined.

(** ** Mana metering *)

(** C8. For every mint that returns, with configured price [p] and host
    costs [c] (compute), [n] (network) and [d] (disk): the products and sums
    of the mana computation fit in 64 bits, so no value wraps; the mana left
    to burn is [max 0 (p * count - (1123019*c + 282*n + 66*d))]; [c] is not
    zero; and the busy loop runs exactly [(residual / c) / 14] iterations,
    both divisions rounding down. *)
Theorem C8_mana_metering env to count w r w' :
  mint env to count w = (Ok r, w') ->
  let p := uint64_value (Storage.manaCost_get (store w)) in
  let c := compute_bandwidth_cost env in
  let n := network_bandwidth_cost env in
  let d := disk_storage_cost env in
  exists residual,
    (forall w0, _manaCost (store w0) = _manaCost (store w) ->
                mint_remainingManaToConsume env count w0 = (Ok residual, w0))
    /\ p * count <= U64_MAX
    /\ 1123019 * c + 282 * n + 66 * d <= U64_MAX
    /\ Z.of_N residual
       = Z.max 0 (Z.of_N p * Z.of_N count
                  - (1123019 * Z.of_N c + 282 * Z.of_N n + 66 * Z.of_N d))
    /\ c <> 0
    /\ loops_run w' = loops_run w + (residual / c) / 14.
Proof.
  intros H p c n d.
  apply mint_Ok in H as (_ & _ & _ & _ & Hc & Ht & Hcc & ->).
  exists (mint_remaining env (store w) count).
  split.
  { intros w0 Hw0.
    assert (Hs : mint_totalMana (store w0) count
                 = mint_totalMana (store w) count).
    { unfold mint_totalMana, Storage.manaCost_get. by rewrite Hw0. }
    rewrite remaining_run; [|done|by rewrite Hs].
    unfold mint_remaining. by rewrite Hs. }
  split; [exact Ht|]. split; [exact Hc|].
  split.
  { unfold mint_remaining, mint_manaConsumed, mint_totalMana. fold p c n d.
    destruct (N.ltb_spec (1123019 * c + 282 * n + 66 * d) (p * count)); lia. }
  split; [exact Hcc|].
  apply minted_loops_run.
Qed.

(** C8 at a concrete input: one token at the default price with costs 89, 1
    and 1 leaves 50961 mana, which is 40 loop iterations. *)
Lemma C8_mana_metering_witness :
  let w' := snd (mint (host alice) alice 1 (enter empty_storage)) in
  mint_remainingManaToConsume (host alice) 1 w' = (Ok 50961, w')
  /\ loops_run w' = 40.
Proof.
  intros w'.
  destruct (C8_mana_metering (host alice) alice 1 (enter empty_storage)
              mk_empty_object w') as (residual & Hr & _ & _ & Hv & _ & Hl).
  - vm_compute. reflexivity.
  - assert (Hz : Z.of_N residual = 50961%Z) by exact Hv.
    assert (residual = 50961) as -> by lia.
    split; [by apply Hr | exact Hl].
Defined.

(** ** set_royalties *)

Lemma royalties_loop_run value total impacted w :
  total + royalties_sum value <= U64_MAX ->
  royalties_loop value total impacted w
  = (Ok (total + royalties_sum value,
         (impacted ++ map royalty_address value)%list), w).
Proof.
  revert total impacted. induction value as [|r value IH];
    intros total impacted H; simpl in *.
  - by rewrite N.add_0_r, app_nil_r.
  - assert (H1 : total + royalty_amount r <= U64_MAX) by lia.
    rewrite (bind_run _ _ _ _ _ (add_run _ _ _ H1)).
    rewrite IH by lia. rewrite <- app_assoc. simpl.
    by rewrite N.add_assoc.
Qed.

(** C7. When the caller holds the authority of the configured collection
    owner: a schedule whose amounts add up to 10001 makes [set_royalties]
    abort (with "ROYALTY_EXCEEDED_MAX") before any write, so the stored
    schedule and everything else stay as they were; a schedule whose amounts
    add up to exactly 10000 makes it return, and the stored schedule is then
    the given one. *)
Theorem C7_royalty_boundary env value w :
  checkAuthority env
    (config_owner (Storage.config_get (contractId env) (store w))) = true ->
  (royalties_sum value = 10001 ->
   set_royalties env value w = (Err royalty_exceeded_max, w)
   /\ call env (op_set_royalties value) (store w)
      = (Err royalty_exceeded_max, store w, []))
  /\ (royalties_sum value = 10000 ->
      set_royalties env value w
      = (Ok mk_empty_object, royalties_set env value w)
      /\ royalties_value (royalties env (store (royalties_set env value w)))
         = value).
Proof.
  intros Hauth.
  assert (Hrun : forall w0, store w0 = store w ->
            royalties_sum value <= 10001 ->
            set_royalties env value w0
            = (if royalties_sum value <=? 10000
               then (Ok mk_empty_object, royalties_set env value w0)
               else (Err royalty_exceeded_max, w0))).
  { intros w0 Hw0 Hsum. unfold set_royalties.
    rewrite bind_gets. unfold _checkOwner, System.requireAuthority.
    rewrite Hw0, Hauth, (bind_run _ _ _ tt w0) by done.
    rewrite (bind_run _ _ _ _ _
               (royalties_loop_run value 0 [] w0 ltac:(unfold U64_MAX; lia))).
    simpl fst. simpl snd. rewrite N.add_0_l.
    destruct (royalties_sum value <=? 10000); [|done].
    rewrite (bind_run _ _ _ tt w0) by done.
    unfold Storage.config_put. rewrite bind_modify, bind_event.
    unfold ret, royalties_set. by rewrite Hw0. }
  split; intros Hsum.
  - split.
    + rewrite Hrun by (done || lia). by rewrite Hsum.
    + eapply call_Err. simpl. rewrite Hrun by (done || lia). by rewrite Hsum.
  - split.
    + rewrite Hrun by (done || lia). by rewrite Hsum.
    + done.
Qed.

(** C7 at concrete inputs: the configured owner submits a schedule of
    10000 + 1 and a schedule of 6000 + 4000 basis points. *)
Lemma C7_royalty_boundary_witness :
  let env := host Constants.OWNER in
  let w := enter empty_storage in
  set_royalties env [mk_royalty_object alice 10000; mk_royalty_object bob 1] w
  = (Err royalty_exceeded_max, w)
  /\ royalties_value
       (royalties env
          (store (royalties_set env
                    [mk_royalty_object alice 6000; mk_royalty_object bob 4000]
                    w)))
     = [mk_royalty_object alice 6000; mk_royalty_object bob 4000].
Proof.
  intros env w.
  assert (Hauth : checkAuthority env
            (config_owner (Storage.config_get (contractId env) (store w)))
          = true) by (vm_compute; reflexivity).
  split.
  - destruct (C7_royalty_boundary env
                [mk_royalty_object alice 10000; mk_royalty_object bob 1]
                w Hauth) as [Hfail _].
    apply Hfail. vm_compute. reflexivity.
  - destruct (C7_royalty_boundary env
                [mk_royalty_object alice 6000; mk_royalty_object bob 4000]
                w Hauth) as [_ Hok].
    apply Hok. vm_compute. reflexivity.
Defined.

(** ** Sum of balances *)

Lemma total_balance_empty : total_balance ∅ = 0.
Proof. unfold total_balance. apply map_fold_empty. Qed.

Lemma total_balance_insert_None (m : gmap bytes balance_object) k b :
  m !! k = None ->
  total_balance (<[k := b]> m) = balance_value b + total_balance m.
Proof.
  intros H. unfold total_balance.
  apply (map_fold_insert_L (fun _ b acc => balance_value b + acc)); [|done].
  intros. lia.
Qed.

Lemma total_balance_delete (m : gmap bytes balance_object) k b :
  m !! k = Some b ->
  total_balance m = balance_value b + total_balance (delete k m).
Proof.
  intros H. rewrite <- (insert_delete_id m k b) at 1 by done.
  apply total_balance_insert_None. apply lookup_delete_eq.
Qed.

Lemma total_balance_insert (m : gmap bytes balance_object) k b :
  total_balance (<[k := b]> m)
  + balance_value (default Storage.balances_default (m !! k))
  = total_balance m + balance_value b.
Proof.
  destruct (m !! k) as [b0|] eqn:Hk; simpl.
  - rewrite (total_balance_delete m k b0 Hk).
    rewrite <- insert_delete_eq.
    rewrite total_balance_insert_None by apply lookup_delete_eq. lia.
  - rewrite total_balance_insert_None by done. lia.
Qed.

Lemma total_balance_lookup_le (m : gmap bytes balance_object) k :
  balance_value (default Storage.balances_default (m !! k))
  <= total_balance m.
Proof.
  destruct (m !! k) as [b0|] eqn:Hk; simpl.
  - rewrite (total_balance_delete m k b0 Hk). lia.
  - lia.
Qed.

(** ** Array helpers *)

Lemma indexOf_from_spec (l : list string) (x : string) (i : Z) :
  ((x ∉ l) /\ indexOf_from l x i = (-1)%Z)
  \/ (exists l1 l2, l = (l1 ++ x :: l2)%list /\ (x ∉ l1)
                    /\ indexOf_from l x i = (i + Z.of_nat (length l1))%Z).
Proof.
  revert i. induction l as [|y l IH]; intros i; simpl.
  - left. split; [apply not_elem_of_nil | done].
  - destruct (String.eqb_spec y x) as [->|Hne].
    + right. exists [], l. simpl. repeat split; [apply not_elem_of_nil | lia].
    + destruct (IH (i + 1)%Z) as [(H1 & H2)|(l1 & l2 & -> & Hn & Hi)].
      * left. split; [|done]. rewrite not_elem_of_cons. done.
      * right. exists (y :: l1), l2. simpl. repeat split.
        -- rewrite not_elem_of_cons. done.
        -- lia.
Qed.

Lemma indexOf_elem (l : list string) (x : string) :
  x ∈ l -> (0 <= indexOf l x)%Z.
Proof.
  intros Hin. unfold indexOf.
  destruct (indexOf_from_spec l x 0) as [(H1 & _)|(l1 & l2 & _ & _ & ->)];
    [done | lia].
Qed.

Lemma splice1_indexOf (l : list string) (x : string) :
  (0 <= indexOf l x)%Z ->
  exists l1 l2, l = (l1 ++ x :: l2)%list /\ (x ∉ l1)
                /\ splice1 l (indexOf l x) = (l1 ++ l2)%list.
Proof.
  unfold indexOf. intros H.
  destruct (indexOf_from_spec l x 0) as [(_ & H2)|(l1 & l2 & -> & Hn & Hi)];
    [lia|].
  exists l1, l2. repeat split; [done|].
  rewrite Hi. unfold splice1.
  replace (Z.to_nat (0 + Z.of_nat (length l1))) with (length l1) by lia.
  rewrite take_app_length. f_equal.
  rewrite (cons_middle x l1 l2), app_assoc.
  apply drop_app_length'. rewrite length_app. simpl. lia.
Qed.

Lemma splice1_elem (l : list string) (x y : string) :
  (0 <= indexOf l x)%Z -> y ∈ l -> y <> x -> y ∈ splice1 l (indexOf l x).
Proof.
  intros Hpos Hin Hne.
  destruct (splice1_indexOf l x Hpos) as (l1 & l2 & -> & _ & ->).
  rewrite elem_of_app, elem_of_cons in Hin. rewrite elem_of_app.
  destruct Hin as [?|[?|?]]; [by left | done | by right].
Qed.

(** ** The operations that leave the ledger alone *)

Lemma approve_Ok env approver to tb w r w' :
  approve env approver to tb w = (Ok r, w') ->
  store w'
  = set_approvals
      (<[StringBytes_bytesToString tb := mk_token_approval_object to]>
         (_approvals (store w))) (store w).
Proof.
  intros H. unfold approve, System.requireAuthority, Storage.approvals_put in H.
  step_Ok H. step_Ok H.
  destruct (Storage.tokens_get (store w) (StringBytes_bytesToString tb))
    as [token|]; [|step_Ok H; discriminate].
  do 3 step_Ok H.
  assert (w0 = w) as ->.
  { destruct (negb (Arrays_equal (token_owner token) approver)).
    - step_Ok Hstep2. step_Ok Hstep2. by apply require_Ok in Hstep2 as [_ ->].
    - by inversion Hstep2. }
  repeat step_Ok H. by inversion H.
Qed.

Lemma set_approval_for_all_Ok env approver operator approved w r w' :
  set_approval_for_all env approver operator approved w = (Ok r, w') ->
  store w'
  = set_operators
      (<[_get_approved_operator_key operator approver
         := mk_operator_approval_object approved]> (_operators (store w)))
      (store w).
Proof.
  intros H.
  unfold set_approval_for_all, System.requireAuthority, Storage.operators_put
    in H.
  repeat step_Ok H. by inversion H.
Qed.

Lemma royalties_loop_Ok value total impacted w r w' :
  royalties_loop value total impacted w = (Ok r, w') -> w' = w.
Proof.
  revert total impacted. induction value as [|x value IH];
    intros total impacted H; simpl in H.
  - by inversion H.
  - step_Ok H. by apply IH in H.
Qed.

Lemma set_royalties_Ok env value w r w' :
  set_royalties env value w = (Ok r, w') ->
  store w'
  = set_config
      (Some (mk_config_object
               (config_owner (Storage.config_get (contractId env) (store w)))
               value))
      (store w).
Proof.
  intros H.
  unfold set_royalties, _checkOwner, System.requireAuthority,
    Storage.config_put in H.
  do 3 step_Ok H. apply royalties_loop_Ok in Hstep0 as ->.
  repeat step_Ok H. by inversion H.
Qed.

Lemma transfer_ownership_Ok env new_owner w r w' :
  transfer_ownership env new_owner w = (Ok r, w') ->
  store w'
  = set_config
      (Some (mk_config_object new_owner
               (config_royalties
                  (Storage.config_get (contractId env) (store w)))))
      (store w).
Proof.
  intros H.
  unfold transfer_ownership, _checkOwner, System.requireAuthority,
    Storage.config_put in H.
  repeat step_Ok H. by inversion H.
Qed.

Lemma call_inv env op s r s' evs :
  call env op s = (Ok r, s', evs) ->
  exists w', run env op (enter s) = (Ok r, w') /\ s' = store w'
             /\ evs = events w'.
Proof.
  unfold call. destruct (run env op (enter s)) as [[r0|e] w'].
  - intros Heq. exists w'. destruct r0, r. by inversion Heq.
  - discriminate.
Qed.

(** ** Bounds on reachable ledgers *)

Lemma lookup_fold_insert (ids : list string) (m : gmap string token_object)
    (v : token_object) id tok :
  fold_left (fun m i => <[i := v]> m) ids m !! id = Some tok ->
  (id ∈ ids /\ tok = v) \/ m !! id = Some tok.
Proof.
  revert m. induction ids as [|i ids IH]; intros m H; simpl in H; [by right|].
  apply IH in H as [[Hin ->]|H].
  - left. split; [by apply elem_of_cons; right | done].
  - rewrite lookup_insert in H. case_decide as Hi.
    + injection H as <-. subst i. left. split; [apply elem_of_cons; by left|done].
    + by right.
Qed.

Lemma ledger_bounded_empty : ledger_bounded empty_storage.
Proof.
  repeat split.
  - done.
  - simpl. rewrite total_balance_empty. done.
  - intros id tok H. simpl in H. by rewrite lookup_empty in H.
Qed.

Lemma ledger_bounded_same s s' :
  same_ledger s s' -> ledger_bounded s -> ledger_bounded s'.
Proof.
  intros (Hs & Ht & Hb & Hl) (H1 & H2 & H3).
  unfold ledger_bounded, Storage.supply_get, Storage.tokensOf_get in *.
  rewrite Hs, Ht, Hb, Hl. done.
Qed.

Lemma ledger_bounded_mint env to n w r w' :
  mint env to n w = (Ok r, w') ->
  ledger_bounded (store w) -> ledger_bounded (store w').
Proof.
  intros H (H1 & H2 & H3).
  apply mint_Ok in H as (_ & _ & Hmax & _ & _ & _ & _ & ->).
  unfold ledger_bounded, Storage.supply_get.
  rewrite minted_supply, minted_balances.
  split; [done|]. split.
  - simpl. pose proof (total_balance_insert (_balances (store w)) to
                  (mk_balance_object
                     (balance_value (Storage.balances_get (store w) to) + n)))
      as Hins.
    unfold Storage.balances_get in *. simpl in Hins.
    unfold Storage.supply_get in *. lia.
  - intros id tok Hid. rewrite minted_tokens in Hid.
    apply lookup_fold_insert in Hid as [[Hin ->]|Hid]; cbn [token_owner].
    + rewrite minted_tokensOf. apply elem_of_app. by right.
    + destruct (decide (token_owner tok = to)) as [Heq|Hne].
      * rewrite Heq, minted_tokensOf. apply elem_of_app. left.
        rewrite <- Heq. by apply H3.
      * unfold Storage.tokensOf_get.
        rewrite minted_tokensOf_other by done. by apply H3 in Hid.
Qed.

Lemma ledger_bounded_transfer env from to tb w r w' :
  transfer env from to tb w = (Ok r, w') ->
  ledger_bounded (store w) -> ledger_bounded (store w').
Proof.
  intros H (H1 & H2 & H3).
  apply transfer_Ok in H as (token & Htok & Hown & _ & Hbf & Hbt & Hidx & ->).
  set (tid := StringBytes_bytesToString tb) in *.
  unfold ledger_bounded, transferred. simpl. fold tid.
  split; [done|]. split.
  - set (m := _balances (store w)) in *.
    set (bt := balance_value (Storage.balances_get (store w) to)) in *.
    set (bf := balance_value (Storage.balances_get (store w) from)) in *.
    pose proof (total_balance_insert m to (mk_balance_object (bt + 1))) as Hto.
    pose proof (total_balance_insert (<[to := mk_balance_object (bt + 1)]> m)
                  from (mk_balance_object (bf - 1))) as Hfrom.
    simpl in Hto, Hfrom.
    change (balance_value (default Storage.balances_default (m !! to)))
      with bt in Hto.
    rewrite lookup_insert in Hfrom. case_decide as Heq; simpl in Hfrom.
    + assert (Hb : bf = bt) by (unfold bf, bt; by rewrite Heq).
      unfold Storage.supply_get in *. cbn [_supply]. lia.
    + change (balance_value (default Storage.balances_default (m !! from)))
        with bf in Hfrom.
      unfold Storage.supply_get in *. cbn [_supply]. lia.
  - intros id tok Hid. unfold Storage.tokensOf_get. simpl.
    rewrite lookup_insert in Hid. case_decide as Hi.
    + injection Hid as <-. subst id. simpl.
      rewrite lookup_insert_eq. simpl. apply elem_of_app. right.
      apply list_elem_of_singleton. done.
    + pose proof (H3 id tok Hid) as Hin.
      rewrite lookup_insert. case_decide as Hto.
      * simpl. apply elem_of_app. left. by rewrite Hto.
      * rewrite lookup_insert. case_decide as Hfrom; [|done].
        simpl. apply splice1_elem; [done| |congruence]. by rewrite Hfrom.
Qed.

Lemma ledger_bounded_run env op w r w' :
  run env op w = (Ok r, w') ->
  ledger_bounded (store w) -> ledger_bounded (store w').
Proof.
  destruct op; simpl; intros H.
  - by eapply ledger_bounded_mint.
  - by eapply ledger_bounded_transfer.
  - apply approve_Ok in H as ->. by apply ledger_bounded_same.
  - apply set_approval_for_all_Ok in H as ->. by apply ledger_bounded_same.
  - by inversion H.
  - apply set_royalties_Ok in H as ->. by apply ledger_bounded_same.
  - apply transfer_ownership_Ok in H as ->. by apply ledger_bounded_same.
Qed.

Lemma reachable_ledger_bounded s : reachable s -> ledger_bounded s.
Proof.
  induction 1 as [|env op s r s' evs _ IH Hcall].
  - apply ledger_bounded_empty.
  - apply call_inv in Hcall as (w' & Hrun & -> & _).
    by apply (ledger_bounded_run env op (enter s) r w').
Qed.

(** ** Supply bound and mint count *)

(** C2, as stated, fails: on the fresh contract (supply 0) a request for
    10000001 tokens has [Supply + count > MAX_SUPPLY], yet the call aborts
    with the count-limit error ("exceeds the limit of tokens to mint of
    10"), which is raised before the supply checks, and not with the
    supply error ("token id out of bounds"). *)
Lemma C2_counterexample :
  Constants.MAX_SUPPLY
  < uint64_value (total_supply empty_storage) + 10000001
  /\ mint (host alice) alice 10000001 (enter empty_storage)
     = (Err mint_limit_exceeded, enter empty_storage)
  /\ mint_limit_exceeded <> token_id_out_of_bounds.
Proof.
  split; [done|]. split; [|done].
  apply mint_over_limit; done.
Qed.

(** C2, amended. In every reachable state [0 <= Supply <= MAX_SUPPLY]. For
    every world and every request with [Supply + count > MAX_SUPPLY] the
    mint aborts before any write, so the world at the abort is the world at
    entry and the transaction leaves supply, balances, tokens and token
    lists unchanged; the error is the one the first failing check raises:
    the checked addition's when [Supply + count] does not fit in 64 bits,
    else the count-limit error when [count > 10], else the supply error
    "token id out of bounds" (which is the case whenever [count <= 10] and
    [Supply <= MAX_SUPPLY]). A mint that returns increases the supply by
    exactly [count]. *)
Theorem C2_supply_bound :
  (forall s, reachable s ->
             uint64_value (total_supply s) <= Constants.MAX_SUPPLY)
  /\ (forall env to count w,
         Constants.MAX_SUPPLY
         < uint64_value (total_supply (store w)) + count ->
         let e := mint_supply_error
                    (uint64_value (total_supply (store w))) count in
         mint env to count w = (Err e, w)
         /\ call env (op_mint to count) (store w) = (Err e, store w, [])
         /\ (count <= 10 ->
             uint64_value (total_supply (store w)) <= Constants.MAX_SUPPLY ->
             e = token_id_out_of_bounds))
  /\ (forall env to count w r w',
         mint env to count w = (Ok r, w') ->
         uint64_value (total_supply (store w'))
         = uint64_value (total_supply (store w)) + count).
Proof.
  split; [|split].
  - intros s Hs. by apply reachable_ledger_bounded in Hs as (H & _).
  - intros env to count w Hover e.
    assert (Hgen : forall w0, store w0 = store w ->
              mint env to count w0 = (Err e, w0)).
    { intros w0 Hw0. unfold e, mint_supply_error, total_supply in *.
      simpl in *. rewrite <- Hw0 in *.
      destruct (N.ltb_spec U64_MAX
                  (balance_value (Storage.supply_get (store w0)) + count)).
      - by apply mint_overflow.
      - destruct (N.ltb_spec 10 count).
        + by apply mint_over_limit.
        + apply mint_out_of_bounds; [done|]. right. done. }
    split; [by apply Hgen|]. split.
    + eapply call_Err. simpl. by apply (Hgen (enter (store w))).
    + intros Hc Hs. unfold e, mint_supply_error.
      destruct (N.ltb_spec U64_MAX
                  (uint64_value (total_supply (store w)) + count)) as [Ho|_].
      { unfold Constants.MAX_SUPPLY, U64_MAX in *. lia. }
      destruct (N.ltb_spec 10 count); [lia | done].
  - intros env to count w r w' H.
    apply mint_Ok in H as (_ & _ & _ & _ & _ & _ & _ & ->).
    unfold total_supply, Storage.supply_get. by rewrite minted_supply.
Qed.

(** C2 at concrete inputs: the state after one mint; a request for 5 tokens
    when the supply is [MAX_SUPPLY - 2]; the first mint on a fresh
    contract. *)
Lemma C2_supply_bound_witness :
  uint64_value (total_supply s_minted) <= Constants.MAX_SUPPLY
  /\ mint (host alice) alice 5 (enter s_nearly_full)
     = (Err token_id_out_of_bounds, enter s_nearly_full)
  /\ uint64_value
       (total_supply
          (store (snd (mint (host alice) alice 1 (enter empty_storage)))))
     = 1.
Proof.
  destruct C2_supply_bound as (Hreach & Hfail & Hok).
  split; [|split].
  - apply Hreach. apply reachable_s_minted.
  - apply (Hfail (host alice) alice 5 (enter s_nearly_full)).
    vm_compute. reflexivity.
  - apply (Hok (host alice) alice 1 (enter empty_storage) mk_empty_object).
    vm_compute. reflexivity.
Defined.

(** C6, as stated, fails: once a token exists (here after alice minted
    one), a mint of 0 tokens returns normally. *)
Lemma C6_counterexample :
  reachable s_minted
  /\ fst (mint (host alice) bob 0 (enter s_minted)) = Ok mk_empty_object.
Proof.
  split; [apply reachable_s_minted|]. vm_compute. reflexivity.
Qed.

(** C6, amended. A mint of 11 tokens aborts with the count-limit error
    before any write, in every world where [Supply + 11] fits in 64 bits
    (every reachable one). A mint of 0 tokens aborts (with "token id out of
    bounds") when the supply is 0; in a reachable state with [Supply >= 1]
    it returns, provided the host's cost figures let the mana computation
    go through, and then creates no token, emits no event and leaves
    supply, token lists and every balance as they were. What a mint that
    returns guarantees is [count <= 10] and
    [1 <= Supply + count <= MAX_SUPPLY]. *)
Theorem C6_mint_count_bounds :
  (forall env to w,
      uint64_value (total_supply (store w)) + 11 <= U64_MAX ->
      mint env to 11 w = (Err mint_limit_exceeded, w))
  /\ (forall env to w,
         uint64_value (total_supply (store w)) = 0 ->
         mint env to 0 w = (Err token_id_out_of_bounds, w))
  /\ (forall env to w,
         reachable (store w) ->
         1 <= uint64_value (total_supply (store w)) ->
         mint_manaConsumed env <= U64_MAX ->
         compute_bandwidth_cost env <> 0 ->
         let w' := minted env to 0 w in
         mint env to 0 w = (Ok mk_empty_object, w')
         /\ _tokens (store w') = _tokens (store w)
         /\ _tokensOf (store w') = _tokensOf (store w)
         /\ events w' = events w
         /\ total_supply (store w') = total_supply (store w)
         /\ (forall account,
                balance_of (store w') account = balance_of (store w) account))
  /\ (forall env to count w r w',
         mint env to count w = (Ok r, w') ->
         count <= 10
         /\ 1 <= uint64_value (total_supply (store w)) + count
            <= Constants.MAX_SUPPLY).
Proof.
  split; [|split; [|split]].
  - intros env to w H. by apply mint_over_limit.
  - intros env to w H. apply mint_out_of_bounds; [done|]. left.
    unfold total_supply in H. simpl in H. by rewrite H.
  - intros env to w Hreach Hpos Hmana Hc w'.
    apply reachable_ledger_bounded in Hreach as (Hmax & Hsum & _).
    pose proof (total_balance_lookup_le (_balances (store w)) to) as Hle.
    unfold total_supply in Hpos. simpl in Hpos.
    split.
    { apply mint_run; try done; try lia.
      - unfold Storage.balances_get. lia.
      - unfold mint_totalMana. rewrite N.mul_0_r. done. }
    unfold w', minted. simpl.
    repeat split.
    + unfold total_supply. simpl. by rewrite N.add_0_r.
    + intros account. unfold balance_of, Storage.balances_get. simpl.
      rewrite lookup_insert. case_decide as Heq; [|done].
      subst account. simpl. by rewrite N.add_0_r.
  - intros env to count w r w' H.
    apply mint_Ok in H as (Hc & Hpos & Hmax & _).
    unfold total_supply. simpl. lia.
Qed.

(** C6 at concrete inputs: 11 and 0 tokens on the fresh contract, 0 tokens
    once token 1 exists, and the first mint of one token. *)
Lemma C6_mint_count_bounds_witness :
  mint (host alice) alice 11 (enter empty_storage)
  = (Err mint_limit_exceeded, enter empty_storage)
  /\ mint (host alice) alice 0 (enter empty_storage)
     = (Err token_id_out_of_bounds, enter empty_storage)
  /\ mint (host alice) bob 0 (enter s_minted)
     = (Ok mk_empty_object, minted (host alice) bob 0 (enter s_minted))
  /\ 1 <= 0 + 1 <= Constants.MAX_SUPPLY.
Proof.
  destruct C6_mint_count_bounds as (H11 & H0 & H0ok & Hpre).
  split; [|split; [|split]].
  - apply H11. vm_compute. discriminate.
  - apply H0. vm_compute. reflexivity.
  - apply (H0ok (host alice) bob (enter s_minted)).
    + apply reachable_s_minted.
    + vm_compute. discriminate.
    + vm_compute. discriminate.
    + vm_compute. discriminate.
  - apply (Hpre (host alice) alice 1 (enter empty_storage) mk_empty_object
             (snd (mint (host alice) alice 1 (enter empty_storage)))).
    vm_compute. reflexivity.
Defined.

(** ** Transfer to oneself *)

(** C10, as stated, fails in two ways. After alice mints tokens 1 and 2 and
    transfers token 1 to herself once, the state is reachable, she owns
    token 1 and her stored balance is 1; a second transfer of token 1 to
    herself returns and leaves her list as 1, 2, 1, 1, so the token occurs
    three times, not twice. And in a storage where the record names alice
    and her balance is 1 but her list is empty (which no run produces), the
    transfer does not return: it aborts on the token-list check. *)
Lemma C10_counterexample :
  (reachable s_self_once
   /\ address_value (owner_of s_self_once token_1) = Some alice
   /\ uint64_value (balance_of s_self_once alice) = 1
   /\ caller (host alice) = alice
   /\ fst (transfer (host alice) alice alice token_1 (enter s_self_once))
      = Ok mk_empty_object
   /\ token_id
        (tokens_of
           (store (snd (transfer (host alice) alice alice token_1
                          (enter s_self_once)))) alice)
      = ["1"; "2"; "1"; "1"]
   /\ count_occ string_dec ["1"; "2"; "1"; "1"] "1" = 3%nat)
  /\ (address_value (owner_of s_unlisted token_1) = Some alice
      /\ uint64_value (balance_of s_unlisted alice) = 1
      /\ fst (transfer (host alice) alice alice token_1 (enter s_unlisted))
         = Err not_in_tokens_list).
Proof.
  split.
  - split.
    + eapply (reachable_call (host alice) (op_transfer alice alice token_1)
                s_two_minted).
      * eapply (reachable_call (quiet_host alice) (op_mint alice 2)).
        -- apply reachable_empty.
        -- vm_compute. reflexivity.
      * vm_compute. reflexivity.
    + vm_compute. repeat split; reflexivity.
  - vm_compute. repeat split; reflexivity.
Qed.

(** C10, amended. In every reachable state where token [t] is owned by [A]
    and [A]'s stored balance is [v >= 1], a transfer of [t] from [A] to [A]
    requested by an authorized caller returns; afterwards [balance_of A] is
    [v - 1] and [tokens_of A] is [A]'s previous list with [t] appended. As
    [t] was in the previous list, it now occurs once more than before, that
    is at least twice. *)
Theorem C10_self_transfer env w A tb v :
  reachable (store w) ->
  address_value (owner_of (store w) tb) = Some A ->
  uint64_value (balance_of (store w) A) = v ->
  1 <= v ->
  transfer_authorized env (store w) A tb ->
  let t := StringBytes_bytesToString tb in
  let w' := transferred A A tb w in
  transfer env A A tb w = (Ok mk_empty_object, w')
  /\ uint64_value (balance_of (store w') A) = v - 1
  /\ token_id (tokens_of (store w') A)
     = (token_id (tokens_of (store w) A) ++ [t])%list
  /\ t ∈ token_id (tokens_of (store w) A)
  /\ (1 <= count_occ string_dec (token_id (tokens_of (store w) A)) t)%nat
  /\ count_occ string_dec (token_id (tokens_of (store w') A)) t
     = S (count_occ string_dec (token_id (tokens_of (store w) A)) t).
Proof.
  intros Hreach Hown Hv Hpos Hauth t w'.
  apply reachable_ledger_bounded in Hreach as (Hmax & Hsum & Hlist).
  unfold owner_of in Hown. fold t in Hown.
  destruct (Storage.tokens_get (store w) t) as [token|] eqn:Htok;
    [|discriminate].
  simpl in Hown. injection Hown as Hown.
  pose proof (Hlist t token Htok) as Hin. rewrite Hown in Hin.
  pose proof (total_balance_lookup_le (_balances (store w)) A) as Hle.
  unfold balance_of in Hv. simpl in Hv.
  assert (Hlists : token_id (tokens_of (store w') A)
                   = (token_id (tokens_of (store w) A) ++ [t])%list).
  { unfold w', transferred, tokens_of, Storage.tokensOf_get. simpl.
    by rewrite lookup_insert_eq. }
  split; [|split; [|split; [|split; [|split]]]].
  - apply (transfer_run env A A tb w token); try done.
    + destruct Hauth as [Hc|Hq]; [by left|right].
      by apply transfer_isTokenApproved_queries.
    + lia.
    + unfold Storage.balances_get, Constants.MAX_SUPPLY, U64_MAX in *. lia.
    + by apply indexOf_elem.
  - unfold w', transferred, balance_of, Storage.balances_get. simpl.
    rewrite lookup_insert_eq. simpl. unfold Storage.balances_get in Hv.
    by rewrite Hv.
  - exact Hlists.
  - exact Hin.
  - assert (0 < count_occ string_dec (token_id (tokens_of (store w) A)) t)%nat.
    { apply count_occ_In. by apply list_elem_of_In. }
    lia.
  - rewrite Hlists, count_occ_app.
    rewrite (count_occ_cons_eq string_dec [] (eq_refl t)), count_occ_nil.
    lia.
Qed.

(** C10 at a concrete input: alice, holding only token 1, transfers it to
    herself. *)
Lemma C10_self_transfer_witness :
  let w' := transferred alice alice token_1 (enter s_minted) in
  transfer (host alice) alice alice token_1 (enter s_minted)
  = (Ok mk_empty_object, w')
  /\ uint64_value (balance_of (store w') alice) = 0
  /\ token_id (tokens_of (store w') alice) = ["1"; "1"].
Proof.
  destruct (C10_self_transfer (host alice) (enter s_minted) alice token_1 1)
    as (Hrun & Hbal & Hl & _).
  - apply reachable_s_minted.
  - vm_compute. reflexivity.
  - vm_compute. reflexivity.
  - vm_compute. discriminate.
  - left. reflexivity.
  - split; [exact Hrun|]. split; [exact Hbal | exact Hl].
Defined.



(** ** Ledger consistency away from self-transfers *)

Lemma u64_toString_inj n m : u64_toString n = u64_toString m -> n = m.
Proof.
  unfold u64_toString. intros H.
  apply DecimalN.Unsigned.to_uint_inj.
  assert (Hs : forall k, NilZero.uint_of_string
                           (NilZero.string_of_uint (N.to_uint k))
                         = Some (N.to_uint k)).
  { intros k. apply NilZero.usu. destruct k; [discriminate|].
    simpl. apply DecimalPos.Unsigned.to_uint_nonnil. }
  pose proof (Hs n) as Hn. rewrite H, Hs in Hn. by injection Hn.
Qed.

Lemma elem_of_u64_seq k start len :
  k ∈ u64_seq start len <-> start <= k < start + N.of_nat len.
Proof.
  revert start. induction len as [|len IH]; intros start; simpl.
  - rewrite elem_of_nil. lia.
  - rewrite elem_of_cons, IH. lia.
Qed.

Lemma NoDup_u64_seq start len : NoDup (u64_seq start len).
Proof.
  revert start. induction len as [|len IH]; intros start; simpl.
  - apply NoDup_nil_2.
  - apply NoDup_cons. split; [|apply IH].
    rewrite elem_of_u64_seq. lia.
Qed.

Lemma elem_of_minted_ids id start len :
  id ∈ minted_ids start len
  <-> exists k, id = u64_toString k /\ start <= k < start + N.of_nat len.
Proof.
  unfold minted_ids.
  change (map u64_toString (u64_seq start len))
    with (u64_toString <$> u64_seq start len).
  rewrite list_elem_of_fmap. split.
  - intros (k & -> & Hk). exists k. by rewrite <- elem_of_u64_seq.
  - intros (k & -> & Hk). exists k. by rewrite elem_of_u64_seq.
Qed.

Lemma NoDup_minted_ids start len : NoDup (minted_ids start len).
Proof.
  unfold minted_ids.
  change (map u64_toString (u64_seq start len))
    with (u64_toString <$> u64_seq start len).
  apply NoDup_fmap_2_strong; [|apply NoDup_u64_seq].
  intros x y _ _. apply u64_toString_inj.
Qed.

Lemma length_minted_ids start len : length (minted_ids start len) = len.
Proof.
  unfold minted_ids. rewrite length_map.
  revert start. induction len as [|len IH]; intros start; simpl; [done|].
  by rewrite IH.
Qed.

Lemma lookup_fold_insert_full (ids : list string)
    (m : gmap string token_object) (v : token_object) id :
  fold_left (fun m i => <[i := v]> m) ids m !! id
  = if decide (id ∈ ids) then Some v else m !! id.
Proof.
  revert m. induction ids as [|i ids IH]; intros m; simpl.
  - destruct (decide (id ∈ [])) as [H|H]; [by apply elem_of_nil in H | done].
  - rewrite IH. destruct (decide (id ∈ ids)) as [Hin|Hnin].
    + rewrite decide_True; [done|]. apply elem_of_cons. by right.
    + rewrite lookup_insert. destruct (decide (i = id)) as [->|Hne].
      * rewrite decide_True; [done|]. apply elem_of_cons. by left.
      * rewrite decide_False; [done|]. rewrite elem_of_cons.
        intros [?|?]; [congruence|done].
Qed.

Lemma owned_count_indexed s account :
  NoDup (token_id (Storage.tokensOf_get s account)) ->
  (forall id,
      id ∈ token_id (Storage.tokensOf_get s account)
      <-> exists tok, _tokens s !! id = Some tok
                      /\ token_owner tok = account) ->
  owned_count s account = length (token_id (Storage.tokensOf_get s account)).
Proof.
  intros Hnd Hiff. unfold owned_count.
  set (l := filter (fun kv : string * token_object =>
                      token_owner (snd kv) = account)
              (map_to_list (_tokens s))).
  rewrite <- (length_fmap fst l).
  apply Permutation_length. apply NoDup_Permutation; [|done|].
  - eapply sublist_NoDup; [apply (NoDup_fst_map_to_list (_tokens s))|].
    apply fmap_sublist. apply sublist_filter.
  - intros id. rewrite Hiff, list_elem_of_fmap. split.
    + intros ([id' tok] & -> & Hin). unfold l in Hin.
      apply list_elem_of_filter in Hin as [Hown Hin].
      apply elem_of_map_to_list in Hin. by exists tok.
    + intros (tok & Hl & Hown). exists (id, tok). split; [done|].
      unfold l. apply list_elem_of_filter. split; [done|].
      by apply elem_of_map_to_list.
Qed.

Lemma ledger_indexed_consistent s : ledger_indexed s -> ledger_consistent s.
Proof.
  intros (Hnd & Hiff & Hbal & _) account.
  rewrite (owned_count_indexed s account (Hnd account) (Hiff account)).
  split; [|done].
  unfold balance_of. simpl. rewrite Hbal. lia.
Qed.

Lemma ledger_indexed_empty : ledger_indexed empty_storage.
Proof.
  repeat split.
  - intros account. apply NoDup_nil_2.
  - intros H. unfold Storage.tokensOf_get in H. simpl in H.
    rewrite lookup_empty in H. simpl in H. by apply elem_of_nil in H.
  - intros (tok & H & _). simpl in H. by rewrite lookup_empty in H.
  - intros id [tok H]. simpl in H. by rewrite lookup_empty in H.
Qed.

Lemma ledger_indexed_same s s' :
  same_ledger s s' -> ledger_indexed s -> ledger_indexed s'.
Proof.
  intros (Hs & Ht & Hb & Hl) H.
  unfold ledger_indexed, Storage.supply_get, Storage.tokensOf_get,
    Storage.balances_get in *.
  rewrite Hs, Ht, Hb, Hl. done.
Qed.

Lemma ledger_indexed_mint env to n w r w' :
  mint env to n w = (Ok r, w') ->
  ledger_indexed (store w) -> ledger_indexed (store w').
Proof.
  intros H (Hnd & Hiff & Hbal & Hids).
  apply mint_Ok in H as (_ & _ & _ & _ & _ & _ & _ & ->).
  set (s := store w) in *.
  set (supply := balance_value (Storage.supply_get s)) in *.
  set (ids := minted_ids (supply + 1) (N.to_nat n)).
  assert (Hfresh : forall id, id ∈ ids -> _tokens s !! id = None).
  { intros id Hin. apply elem_of_minted_ids in Hin as (k & -> & Hk).
    destruct (_tokens s !! u64_toString k) as [tok|] eqn:Hl; [|done].
    destruct (Hids (u64_toString k)) as (k' & Heq & Hk'); [by eexists|].
    apply u64_toString_inj in Heq. subst k'. fold supply in Hk'. lia. }
  assert (Hlook : forall id,
             _tokens (store (minted env to n w)) !! id
             = if decide (id ∈ ids) then Some (mk_token_object to)
               else _tokens s !! id).
  { intros id. rewrite minted_tokens. apply lookup_fold_insert_full. }
  assert (Hto : token_id (Storage.tokensOf_get (store (minted env to n w)) to)
                = (token_id (Storage.tokensOf_get s to) ++ ids)%list)
    by apply minted_tokensOf.
  assert (Hother : forall account, account <> to ->
             Storage.tokensOf_get (store (minted env to n w)) account
             = Storage.tokensOf_get s account).
  { intros account Hne. unfold Storage.tokensOf_get.
    by rewrite minted_tokensOf_other. }
  assert (Hold : forall account id,
             id ∈ token_id (Storage.tokensOf_get s account) -> id ∉ ids).
  { intros account id Hin Hin'. apply Hiff in Hin as (tok & Hl & _).
    apply Hfresh in Hin'. congruence. }
  split; [|split; [|split]].
  - intros account. destruct (decide (account = to)) as [->|Hne].
    + rewrite Hto. apply NoDup_app. split; [apply Hnd|]. split.
      * intros id. apply Hold.
      * apply NoDup_minted_ids.
    + rewrite Hother by done. apply Hnd.
  - intros account id. rewrite Hlook.
    destruct (decide (account = to)) as [->|Hne].
    + rewrite Hto, elem_of_app. destruct (decide (id ∈ ids)) as [Hin|Hnin].
      * split; [|by right]. intros _. by eexists.
      * rewrite Hiff. tauto.
    + rewrite Hother by done. destruct (decide (id ∈ ids)) as [Hin|Hnin].
      * split.
        -- intros Hl. by apply Hold in Hl.
        -- intros (tok & [= <-] & Hown). simpl in Hown. congruence.
      * apply Hiff.
  - intros account. unfold Storage.balances_get. rewrite minted_balances.
    destruct (decide (account = to)) as [->|Hne].
    + rewrite lookup_insert_eq, Hto, length_app. simpl.
      unfold ids. rewrite length_minted_ids.
      pose proof (Hbal to) as Hb. fold s. lia.
    + rewrite lookup_insert_ne, Hother by done. apply Hbal.
  - intros id. rewrite Hlook. unfold Storage.supply_get.
    rewrite minted_supply. simpl. fold s supply.
    destruct (decide (id ∈ ids)) as [Hin|Hnin].
    + intros _. apply elem_of_minted_ids in Hin as (k & -> & Hk).
      exists k. split; [done|]. lia.
    + intros Hs. apply Hids in Hs as (k & -> & Hk). exists k.
      split; [done|]. fold supply in Hk. lia.
Qed.

Lemma transferred_tokensOf from to tb w account :
  let s := store w in
  let tid := StringBytes_bytesToString tb in
  let lf := token_id (Storage.tokensOf_get s from) in
  let lt := token_id (Storage.tokensOf_get s to) in
  token_id (Storage.tokensOf_get (store (transferred from to tb w)) account)
  = if decide (account = to) then (lt ++ [tid])%list
    else if decide (account = from) then splice1 lf (indexOf lf tid)
    else token_id (Storage.tokensOf_get s account).
Proof.
  intros s tid lf lt.
  change (Storage.tokensOf_get (store (transferred from to tb w)) account)
    with (default Storage.tokensOf_default
            (<[to := mk_tokens_of_result (lt ++ [tid])%list]>
               (<[from := mk_tokens_of_result (splice1 lf (indexOf lf tid))]>
                  (_tokensOf s)) !! account)).
  destruct (decide (account = to)) as [->|Hto].
  - by rewrite lookup_insert_eq.
  - rewrite lookup_insert_ne by done.
    destruct (decide (account = from)) as [->|Hfrom].
    + by rewrite lookup_insert_eq.
    + by rewrite lookup_insert_ne.
Qed.

Lemma transferred_balances from to tb w account :
  let s := store w in
  balance_value
    (Storage.balances_get (store (transferred from to tb w)) account)
  = if decide (account = from)
    then balance_value (Storage.balances_get s from) - 1
    else if decide (account = to)
         then balance_value (Storage.balances_get s to) + 1
         else balance_value (Storage.balances_get s account).
Proof.
  intros s.
  change (Storage.balances_get (store (transferred from to tb w)) account)
    with (default Storage.balances_default
            (<[from := mk_balance_object
                         (balance_value (Storage.balances_get s from) - 1)]>
               (<[to := mk_balance_object
                          (balance_value (Storage.balances_get s to) + 1)]>
                  (_balances s)) !! account)).
  destruct (decide (account = from)) as [->|Hfrom].
  - by rewrite lookup_insert_eq.
  - rewrite lookup_insert_ne by done.
    destruct (decide (account = to)) as [->|Hto].
    + by rewrite lookup_insert_eq.
    + by rewrite lookup_insert_ne.
Qed.

Lemma transferred_tokens from to tb w id :
  _tokens (store (transferred from to tb w)) !! id
  = if decide (id = StringBytes_bytesToString tb)
    then Some (mk_token_object to)
    else _tokens (store w) !! id.
Proof.
  change (_tokens (store (transferred from to tb w)))
    with (<[StringBytes_bytesToString tb := mk_token_object to]>
            (_tokens (store w))).
  destruct (decide (id = StringBytes_bytesToString tb)) as [->|Hne].
  - by rewrite lookup_insert_eq.
  - by rewrite lookup_insert_ne.
Qed.

Lemma ledger_indexed_transfer env from to tb w r w' :
  transfer env from to tb w = (Ok r, w') ->
  from <> to ->
  ledger_indexed (store w) -> ledger_indexed (store w').
Proof.
  intros H Hne (Hnd & Hiff & Hbal & Hids).
  apply transfer_Ok in H as (token & Htok & Hown & _ & Hbf & _ & Hidx & ->).
  set (s := store w) in *.
  set (tid := StringBytes_bytesToString tb) in *.
  set (lf := token_id (Storage.tokensOf_get s from)) in *.
  set (lt := token_id (Storage.tokensOf_get s to)) in *.
  destruct (splice1_indexOf lf tid Hidx) as (l1 & l2 & Hlf & Hn1 & Hsp).
  assert (Hndf : NoDup (l1 ++ tid :: l2)).
  { rewrite <- Hlf. apply Hnd. }
  apply NoDup_app in Hndf as (Hnd1 & Hdisj & Hnd2).
  apply NoDup_cons in Hnd2 as (Hn2 & Hnd2).
  assert (Hnt : tid ∉ lt).
  { intros Hin. apply Hiff in Hin as (tok & Hl & Ho).
    unfold Storage.tokens_get in Htok. congruence. }
  assert (Hlists : forall account,
             token_id (Storage.tokensOf_get
                         (store (transferred from to tb w)) account)
             = if decide (account = to) then (lt ++ [tid])%list
               else if decide (account = from) then (l1 ++ l2)%list
               else token_id (Storage.tokensOf_get s account)).
  { intros account. rewrite transferred_tokensOf. fold s tid lf lt.
    by rewrite Hsp. }
  assert (Hlook : forall id,
             _tokens (store (transferred from to tb w)) !! id
             = if decide (id = tid) then Some (mk_token_object to)
               else _tokens s !! id).
  { intros id. apply transferred_tokens. }
  split; [|split; [|split]].
  - intros account. rewrite Hlists.
    destruct (decide (account = to)); [|destruct (decide (account = from))].
    + apply NoDup_app. split; [apply Hnd|]. split.
      * intros x Hx. rewrite list_elem_of_singleton. intros ->. done.
      * apply NoDup_singleton.
    + apply NoDup_app. split; [done|]. split; [|done].
      intros x Hx Hx2. apply (Hdisj x Hx). apply elem_of_cons. by right.
    + apply Hnd.
  - intros account id. rewrite Hlists, Hlook.
    destruct (decide (id = tid)) as [->|Hid].
    + destruct (decide (account = to)) as [->|Hto];
        [|destruct (decide (account = from)) as [->|Hfrom]].
      * split; [by eexists|]. intros _. apply elem_of_app. right.
        by apply list_elem_of_singleton.
      * split.
        -- rewrite elem_of_app. intros [?|?]; done.
        -- intros (tok & [= <-] & Ho). simpl in Ho. congruence.
      * split.
        -- intros Hin. apply Hiff in Hin as (tok & Hl & Ho).
           unfold Storage.tokens_get in Htok. congruence.
        -- intros (tok & [= <-] & Ho). simpl in Ho. congruence.
    + destruct (decide (account = to)) as [->|Hto];
        [|destruct (decide (account = from)) as [->|Hfrom]].
      * rewrite elem_of_app, list_elem_of_singleton, <- Hiff. fold lt. tauto.
      * rewrite <- Hiff. fold lf. rewrite Hlf, !elem_of_app, elem_of_cons.
        tauto.
      * apply Hiff.
  - intros account. rewrite Hlists, transferred_balances. fold s.
    pose proof (Hbal from) as Hbfrom. pose proof (Hbal to) as Hbto.
    fold lf in Hbfrom. fold lt in Hbto. rewrite Hlf in Hbfrom.
    rewrite length_app in Hbfrom. simpl in Hbfrom.
    destruct (decide (account = to)) as [->|Hto];
      [|destruct (decide (account = from)) as [->|Hfrom]].
    + rewrite decide_False by done. rewrite length_app. simpl. lia.
    + rewrite length_app. lia.
    + apply Hbal.
  - intros id. rewrite Hlook.
    destruct (decide (id = tid)) as [->|Hid].
    + intros _. apply Hids. unfold Storage.tokens_get in Htok. by eexists.
    + apply Hids.
Qed.

Lemma ledger_indexed_run env op w r w' :
  no_self_transfer op ->
  run env op w = (Ok r, w') ->
  ledger_indexed (store w) -> ledger_indexed (store w').
Proof.
  destruct op; simpl; intros Hns H.
  - by eapply ledger_indexed_mint.
  - by eapply ledger_indexed_transfer.
  - apply approve_Ok in H as ->. by apply ledger_indexed_same.
  - apply set_approval_for_all_Ok in H as ->. by apply ledger_indexed_same.
  - by inversion H.
  - apply set_royalties_Ok in H as ->. by apply ledger_indexed_same.
  - apply transfer_ownership_Ok in H as ->. by apply ledger_indexed_same.
Qed.

(** Along every run that contains no transfer from an account to itself,
    the ledger stays consistent: for every account the stored balance, the
    number of token records it owns and the length of its token list are
    equal. *)
Theorem ledger_consistent_without_self_transfer s :
  reachable_without_self_transfer s -> ledger_consistent s.
Proof.
  intros H. apply ledger_indexed_consistent.
  induction H as [|env op s r s' evs _ IH Hns Hcall].
  - apply ledger_indexed_empty.
  - apply call_inv in Hcall as (w' & Hrun & -> & _).
    by apply (ledger_indexed_run env op (enter s) r w').
Qed.

(** C1 does not hold of the code: the state reached when alice mints token
    1 and then transfers it to herself is reachable, and there alice's
    stored balance is 0 while one token record names her as owner and her
    token list has length 2, so the ledger is not consistent. *)
Theorem C1_self_transfer_breaks_ledger_consistency :
  reachable s_self_transferred
  /\ uint64_value (balance_of s_self_transferred alice) = 0
  /\ owned_count s_self_transferred alice = 1%nat
  /\ token_id (tokens_of s_self_transferred alice) = ["1"; "1"]
  /\ ~ ledger_consistent s_self_transferred.
Proof.
  assert (Hvals : uint64_value (balance_of s_self_transferred alice) = 0
                  /\ owned_count s_self_transferred alice = 1%nat
                  /\ token_id (tokens_of s_self_transferred alice)
                     = ["1"; "1"]).
  { vm_compute. done. }
  destruct Hvals as (Hb & Ho & Hl).
  split; [|split; [done|split; [done|split; [done|]]]].
  - eapply (reachable_call (host alice) (op_transfer alice alice token_1)).
    + apply reachable_s_minted.
    + vm_compute. reflexivity.
  - intros Hc. destruct (Hc alice) as [Hbo _]. rewrite Hb, Ho in Hbo.
    discriminate.
Qed.

(** * Further properties of the contract *)

(** ** approve and set_approval_for_all, case by case *)

Lemma requireAuthority_run env account w :
  System.requireAuthority env account w
  = if checkAuthority env account then (Ok tt, w)
    else (Err (authorization_failed account), w).
Proof.
  unfold System.requireAuthority, System.require.
  by destruct (checkAuthority env account).
Qed.

Lemma approve_cases env approver to tb w :
  let s := store w in
  let tid := StringBytes_bytesToString tb in
  approve env approver to tb w
  = if negb (checkAuthority env approver)
    then (Err (authorization_failed approver), w)
    else
      match Storage.tokens_get s tid with
      | None => (Err nonexistent_token, w)
      | Some token =>
          if Arrays_equal (token_owner token) to
          then (Err approve_to_current_owner, w)
          else if Arrays_equal (token_owner token) approver
          then (Ok mk_empty_object, approval_set approver to tb w)
          else
            match Storage.operators_get s
                    (_get_approved_operator_key approver (token_owner token))
            with
            | None => (Err approved_does_not_exist, w)
            | Some approval =>
                if operator_approved approval
                then (Ok mk_empty_object, approval_set approver to tb w)
                else (Err approver_is_not_owner, w)
            end
      end.
Proof.
  intros s tid. unfold approve. fold tid.
  unfold bind at 1. rewrite requireAuthority_run.
  destruct (checkAuthority env approver); [|done]. simpl negb. cbv iota.
  rewrite bind_gets. fold s.
  destruct (Storage.tokens_get s tid) as [token|]; [|done].
  rewrite (bind_run _ _ _ tt w) by done.
  destruct (Arrays_equal (token_owner token) to); [done|].
  rewrite (bind_run _ _ _ tt w) by done.
  destruct (Arrays_equal (token_owner token) approver); simpl negb; cbv iota.
  { rewrite bind_ret. done. }
  unfold bind at 1. rewrite bind_gets. fold s.
  destruct (Storage.operators_get s _) as [approval|]; [|done].
  rewrite (bind_run _ _ _ tt w) by done.
  destruct (operator_approved approval); done.
Qed.

Lemma set_approval_for_all_cases env approver operator approved w :
  set_approval_for_all env approver operator approved w
  = if negb (checkAuthority env approver)
    then (Err (authorization_failed approver), w)
    else if Arrays_equal approver operator
    then (Err approve_to_operator, w)
    else (Ok mk_empty_object, operator_set approver operator approved w).
Proof.
  unfold set_approval_for_all.
  unfold bind at 1. rewrite requireAuthority_run.
  destruct (checkAuthority env approver); [|done]. simpl negb. cbv iota.
  destruct (Arrays_equal approver operator); done.
Qed.

Lemma transfer_ownership_cases env new_owner w :
  transfer_ownership env new_owner w
  = if checkAuthority env
         (config_owner (Storage.config_get (contractId env) (store w)))
    then (Ok mk_empty_object, ownership_transferred env new_owner w)
    else (Err (authorization_failed
                 (config_owner
                    (Storage.config_get (contractId env) (store w)))), w).
Proof.
  unfold transfer_ownership, _checkOwner. rewrite bind_gets.
  unfold bind at 1. rewrite requireAuthority_run.
  destruct (checkAuthority env _); done.
Qed.

Lemma may_approve_true s approver owner :
  may_approve s approver owner = true
  <-> owner = approver
      \/ bool_value (is_approved_for_all s owner approver) = true.
Proof.
  unfold may_approve. rewrite orb_true_iff, Arrays_equal_true. tauto.
Qed.

(** X1. [approve] returns exactly when the caller holds the authority of
    the approver, the token exists, the account to approve is not the
    token's owner, and the approver is the owner or an operator the owner
    has approved. *)
Theorem approve_returns_iff env approver to tb w :
  (exists r w', approve env approver to tb w = (Ok r, w'))
  <-> checkAuthority env approver = true
      /\ exists owner,
           address_value (owner_of (store w) tb) = Some owner
           /\ owner <> to
           /\ may_approve (store w) approver owner = true.
Proof.
  rewrite approve_cases. unfold owner_of, may_approve, is_approved_for_all.
  destruct (checkAuthority env approver); simpl negb; cbv iota.
  2:{ split; [intros (r & w' & [=]) | intros [[=] _]]. }
  destruct (Storage.tokens_get (store w) (StringBytes_bytesToString tb))
    as [token|]; simpl.
  2:{ split; [intros (r & w' & [=]) | intros (_ & o & [=] & _)]. }
  destruct (Arrays_equal (token_owner token) to) eqn:Hto.
  { apply Arrays_equal_true in Hto.
    split; [intros (r & w' & [=])|].
    intros (_ & o & [= <-] & Hne & _). done. }
  apply Arrays_equal_false in Hto.
  destruct (Arrays_equal (token_owner token) approver) eqn:Ha; simpl.
  { split; [|by eauto]. intros _. split; [done|].
    exists (token_owner token). by rewrite Ha. }
  destruct (Storage.operators_get (store w) _) as [approval|] eqn:Hop; simpl.
  - destruct (operator_approved approval) eqn:Hap.
    + split; [|by eauto]. intros _. split; [done|].
      exists (token_owner token). rewrite Ha, Hop. simpl. by rewrite Hap.
    + split; [intros (r & w' & [=])|].
      intros (_ & o & [= <-] & _ & H). rewrite Ha, Hop in H. simpl in H.
      congruence.
  - split; [intros (r & w' & [=])|].
    intros (_ & o & [= <-] & _ & H). rewrite Ha, Hop in H. done.
Qed.

(** X2. An [approve] that returns stores the approval and nothing else:
    afterwards [get_approved] of the token is the approved account, the
    token's owner, the ledger, the operator approvals and the configuration
    are as before, and one approval event was emitted. *)
Theorem approve_effect env approver to tb w r w' :
  approve env approver to tb w = (Ok r, w') ->
  w' = approval_set approver to tb w
  /\ address_value (get_approved (store w') tb) = Some to
  /\ owner_of (store w') tb = owner_of (store w) tb
  /\ same_ledger (store w) (store w')
  /\ _operators (store w') = _operators (store w)
  /\ _config (store w') = _config (store w)
  /\ length (events w') = S (length (events w)).
Proof.
  intros H.
  assert (Hw : w' = approval_set approver to tb w).
  { rewrite approve_cases in H.
    destruct (checkAuthority env approver); [|discriminate].
    simpl in H.
    destruct (Storage.tokens_get _ _) as [token|]; [|discriminate].
    destruct (Arrays_equal (token_owner token) to); [discriminate|].
    destruct (Arrays_equal (token_owner token) approver); [by inversion H|].
    destruct (Storage.operators_get _ _) as [ap|]; [|discriminate].
    destruct (operator_approved ap); [by inversion H | discriminate]. }
  subst w'. split; [done|].
  unfold get_approved, Storage.approvals_get, approval_set. simpl.
  rewrite lookup_insert_eq. repeat split; try done.
  rewrite length_app. simpl. lia.
Qed.

Lemma approve_effect_witness :
  address_value
    (get_approved
       (store (snd (approve (host alice) alice bob token_1 (enter s_minted))))
       token_1) = Some bob.
Proof.
  destruct (approve_effect (host alice) alice bob token_1 (enter s_minted)
              mk_empty_object
              (snd (approve (host alice) alice bob token_1 (enter s_minted))))
    as (_ & H & _).
  - vm_compute. reflexivity.
  - exact H.
Defined.

(** X3. An [approve] that cannot go through aborts before any write, with
    the error of the first check that fails: the authority check, the
    existence of the token, the "not the current owner" check, and for an
    approver that is not the owner the operator approval (absent, or
    recorded as false). *)
Theorem approve_errors env approver to tb w :
  (checkAuthority env approver = false ->
   approve env approver to tb w = (Err (authorization_failed approver), w))
  /\ (checkAuthority env approver = true ->
      address_value (owner_of (store w) tb) = None ->
      approve env approver to tb w = (Err nonexistent_token, w))
  /\ (checkAuthority env approver = true ->
      address_value (owner_of (store w) tb) = Some to ->
      approve env approver to tb w = (Err approve_to_current_owner, w))
  /\ (forall owner,
         checkAuthority env approver = true ->
         address_value (owner_of (store w) tb) = Some owner ->
         owner <> to ->
         may_approve (store w) approver owner = false ->
         approve env approver to tb w
         = (Err (match Storage.operators_get (store w)
                         (_get_approved_operator_key approver owner) with
                 | None => approved_does_not_exist
                 | Some _ => approver_is_not_owner
                 end), w)).
Proof.
  rewrite approve_cases. unfold owner_of, may_approve, is_approved_for_all.
  destruct (checkAuthority env approver); simpl negb; cbv iota.
  2:{ repeat split; by intros. }
  destruct (Storage.tokens_get (store w) (StringBytes_bytesToString tb))
    as [token|]; simpl.
  2:{ repeat split; by intros. }
  split; [done|]. split; [by intros _ [=]|]. split.
  - intros _ [= Hto]. apply Arrays_equal_true in Hto. by rewrite Hto.
  - intros o _ [= <-] Hne Hmay.
    apply Arrays_equal_false in Hne. rewrite Hne.
    apply orb_false_iff in Hmay as [Ha Hop]. rewrite Ha.
    destruct (Storage.operators_get (store w) _) as [ap|]; [|done].
    simpl in Hop. by rewrite Hop.
Qed.

Lemma approve_errors_witness :
  approve (host_no_authority alice) alice bob token_1 (enter s_minted)
  = (Err (authorization_failed alice), enter s_minted)
  /\ approve (host alice) alice bob (StringBytes_stringToBytes "7")
       (enter s_minted)
     = (Err nonexistent_token, enter s_minted)
  /\ approve (host alice) alice alice token_1 (enter s_minted)
     = (Err approve_to_current_owner, enter s_minted)
  /\ approve (host bob) bob carol token_1 (enter s_minted)
     = (Err approved_does_not_exist, enter s_minted).
Proof.
  split; [|split; [|split]].
  - apply approve_errors. reflexivity.
  - apply approve_errors; vm_compute; reflexivity.
  - apply approve_errors; vm_compute; reflexivity.
  - apply (proj2 (proj2 (proj2
             (approve_errors (host bob) bob carol token_1 (enter s_minted))))
             alice).
    + vm_compute. reflexivity.
    + vm_compute. reflexivity.
    + vm_compute. discriminate.
    + vm_compute. reflexivity.
Defined.

(** X4. A caller holding the approver's authority can set the operator
    approval of any other account: the call returns, [is_approved_for_all]
    then answers the flag just written, the ledger, the single-token
    approvals and the configuration are untouched, and repeating the call
    leaves the storage as it is. *)
Theorem set_approval_for_all_round_trip env approver operator approved w :
  checkAuthority env approver = true ->
  approver <> operator ->
  let w' := operator_set approver operator approved w in
  set_approval_for_all env approver operator approved w
  = (Ok mk_empty_object, w')
  /\ bool_value (is_approved_for_all (store w') approver operator) = approved
  /\ same_ledger (store w) (store w')
  /\ _approvals (store w') = _approvals (store w)
  /\ _config (store w') = _config (store w)
  /\ (exists w'',
         set_approval_for_all env approver operator approved w'
         = (Ok mk_empty_object, w'')
         /\ store w'' = store w').
Proof.
  intros Hauth Hne w'.
  assert (Hrun : forall w0,
             set_approval_for_all env approver operator approved w0
             = (Ok mk_empty_object,
                operator_set approver operator approved w0)).
  { intros w0. rewrite set_approval_for_all_cases, Hauth. simpl.
    apply Arrays_equal_false in Hne. by rewrite Hne. }
  split; [apply Hrun|].
  split.
  { unfold is_approved_for_all, Storage.operators_get, w', operator_set.
    simpl. by rewrite lookup_insert_eq. }
  repeat split; try done.
  exists (operator_set approver operator approved w'). split; [apply Hrun|].
  unfold w', operator_set, set_operators. simpl.
  by rewrite insert_insert_eq.
Qed.

Lemma set_approval_for_all_round_trip_witness :
  bool_value
    (is_approved_for_all
       (store (operator_set alice bob true (enter s_minted))) alice bob)
  = true.
Proof.
  destruct (set_approval_for_all_round_trip (host alice) alice bob true
              (enter s_minted)) as (_ & H & _).
  - vm_compute. reflexivity.
  - vm_compute. discriminate.
  - exact H.
Defined.

(** X5. [set_approval_for_all] aborts before any write when the caller lacks
    the approver's authority, and when an account names itself as its own
    operator; in both cases the error code is the authorization failure, and
    these are the only ways it aborts. *)
Theorem set_approval_for_all_errors env approver operator approved w :
  (checkAuthority env approver = false ->
   set_approval_for_all env approver operator approved w
   = (Err (authorization_failed approver), w))
  /\ (checkAuthority env approver = true ->
      approver = operator ->
      set_approval_for_all env approver operator approved w
      = (Err approve_to_operator, w))
  /\ (forall e w',
         set_approval_for_all env approver operator approved w
         = (Err e, w') ->
         w' = w /\ code e = authorization_failure
         /\ (checkAuthority env approver = false \/ approver = operator)).
Proof.
  rewrite set_approval_for_all_cases.
  destruct (checkAuthority env approver); simpl negb; cbv iota.
  - split; [done|]. split.
    + intros _ Heq. apply Arrays_equal_true in Heq. by rewrite Heq.
    + intros e w'. destruct (Arrays_equal approver operator) eqn:Heq;
        [|discriminate].
      apply Arrays_equal_true in Heq. intros [= <- <-]. auto.
  - split; [done|]. split; [done|]. intros e w' [= <- <-]. auto.
Qed.

Lemma set_approval_for_all_errors_witness :
  set_approval_for_all (host bob) alice bob true (enter s_minted)
  = (Err (authorization_failed alice), enter s_minted)
  /\ set_approval_for_all (host alice) alice alice true (enter s_minted)
     = (Err approve_to_operator, enter s_minted).
Proof.
  split.
  - apply set_approval_for_all_errors. vm_compute. reflexivity.
  - apply set_approval_for_all_errors; [vm_compute|]; reflexivity.
Defined.

(** X6. The holder of the current owner's authority can hand the collection
    over: [transfer_ownership] returns, [owner] then answers the new owner,
    the royalty schedule and the rest of the storage are as before, and from
    then on a caller without the new owner's authority can neither set the
    royalties nor transfer the ownership again. Without the current owner's
    authority the call aborts before any write. *)
Theorem transfer_ownership_hands_over env new_owner w :
  let current :=
    config_owner (Storage.config_get (contractId env) (store w)) in
  (checkAuthority env current = true ->
   let w' := ownership_transferred env new_owner w in
   transfer_ownership env new_owner w = (Ok mk_empty_object, w')
   /\ (forall env', address_value (owner env' (store w')) = Some new_owner)
   /\ (forall env', royalties env' (store w') = royalties env (store w))
   /\ same_ledger (store w) (store w')
   /\ _approvals (store w') = _approvals (store w)
   /\ _operators (store w') = _operators (store w)
   /\ (forall env' value o,
          checkAuthority env' new_owner = false ->
          set_royalties env' value w'
          = (Err (authorization_failed new_owner), w')
          /\ transfer_ownership env' o w'
             = (Err (authorization_failed new_owner), w')))
  /\ (checkAuthority env current = false ->
      transfer_ownership env new_owner w
      = (Err (authorization_failed current), w)).
Proof.
  intros current. rewrite transfer_ownership_cases. fold current.
  split; intros Hauth; rewrite Hauth; [|done].
  intros w'. repeat split; try done.
  - unfold set_royalties, _checkOwner. rewrite bind_gets.
    apply bind_Err. rewrite requireAuthority_run.
    change (config_owner
              (Storage.config_get (contractId env') (store w')))
      with new_owner.
    by rewrite H.
  - rewrite transfer_ownership_cases.
    change (config_owner
              (Storage.config_get (contractId env') (store w')))
      with new_owner.
    by rewrite H.
Qed.

Lemma transfer_ownership_hands_over_witness :
  address_value
    (owner (host bob)
       (store (ownership_transferred (host Constants.OWNER) alice
                 (enter empty_storage)))) = Some alice
  /\ transfer_ownership (host alice) bob (enter empty_storage)
     = (Err (authorization_failed Constants.OWNER), enter empty_storage).
Proof.
  destruct (transfer_ownership_hands_over (host Constants.OWNER) alice
              (enter empty_storage)) as [Hok _].
  destruct (transfer_ownership_hands_over (host alice) bob
              (enter empty_storage)) as [_ Herr].
  split.
  - destruct Hok as (_ & H & _); [vm_compute; reflexivity|]. apply H.
  - apply Herr. vm_compute. reflexivity.
Defined.

(** ** transfer, further *)

Lemma transfer_unauthorized env from to tb w token :
  Storage.tokens_get (store w) (StringBytes_bytesToString tb) = Some token ->
  token_owner token = from ->
  caller env <> from ->
  transfer_isTokenApproved env (store w) (StringBytes_bytesToString tb)
    token from = false ->
  transfer env from to tb w = (Err transfer_not_authorized, w).
Proof.
  intros Htok Hown Hcaller Hb.
  unfold transfer. rewrite bind_gets, Htok.
  rewrite (bind_run _ _ _ tt w) by done.
  apply Arrays_equal_true in Hown. rewrite Hown.
  rewrite (bind_run _ _ _ tt w) by done.
  apply Arrays_equal_false in Hcaller. rewrite Hcaller. simpl.
  apply bind_Err. rewrite bind_gets. by rewrite Hb.
Qed.

Lemma transfer_run_bounded env from to tb w :
  ledger_bounded (store w) ->
  address_value (owner_of (store w) tb) = Some from ->
  transfer_authorized env (store w) from tb ->
  1 <= uint64_value (balance_of (store w) from) ->
  transfer env from to tb w = (Ok mk_empty_object, transferred from to tb w).
Proof.
  intros (Hmax & Hsum & Hlist) Hown Hauth Hpos.
  unfold owner_of in Hown.
  destruct (Storage.tokens_get (store w) (StringBytes_bytesToString tb))
    as [token|] eqn:Htok; [|discriminate].
  simpl in Hown. injection Hown as Hown.
  pose proof (Hlist _ token Htok) as Hin. rewrite Hown in Hin.
  pose proof (total_balance_lookup_le (_balances (store w)) to) as Hle.
  apply (transfer_run env from to tb w token); try done.
  - destruct Hauth as [Hc|Hq]; [by left|right].
    by apply transfer_isTokenApproved_queries.
  - unfold Storage.balances_get, Constants.MAX_SUPPLY, U64_MAX in *. lia.
  - by apply indexOf_elem.
Qed.

(** X7. Nobody can move a token that does not exist or that [from] does not
    own: whoever calls and whatever authority the host grants, such a
    transfer aborts before any write, with "nonexistent token" (failure) or
    "from is not a owner" (authorization failure). *)
Theorem transfer_rejects_unknown_or_foreign_token env from to tb w :
  (address_value (owner_of (store w) tb) = None ->
   transfer env from to tb w = (Err nonexistent_token, w))
  /\ (forall owner,
         address_value (owner_of (store w) tb) = Some owner ->
         owner <> from ->
         transfer env from to tb w = (Err from_is_not_owner, w)).
Proof.
  unfold owner_of, transfer. rewrite bind_gets.
  destruct (Storage.tokens_get (store w) (StringBytes_bytesToString tb))
    as [token|]; simpl.
  - split; [done|]. intros o [= <-] Hne.
    rewrite (bind_run _ _ _ tt w) by done.
    apply Arrays_equal_false in Hne. by rewrite Hne.
  - split; [done|]. by intros o [=].
Qed.

Lemma transfer_rejects_unknown_or_foreign_token_witness :
  transfer (host alice) alice bob (StringBytes_stringToBytes "2")
    (enter s_minted)
  = (Err nonexistent_token, enter s_minted)
  /\ transfer (host bob) bob carol token_1 (enter s_minted)
     = (Err from_is_not_owner, enter s_minted).
Proof.
  split.
  - apply transfer_rejects_unknown_or_foreign_token. vm_compute. reflexivity.
  - apply (proj2 (transfer_rejects_unknown_or_foreign_token (host bob) bob
                    carol token_1 (enter s_minted)) alice).
    + vm_compute. reflexivity.
    + vm_compute. discriminate.
Defined.



(** X9. In a reachable state a transfer returns exactly when the token
    exists and is owned by [from], the caller is authorized for it (it is
    [from], the token's approved account, an approved operator of [from],
    or holds [from]'s authority) and [from]'s stored balance is at least 1;
    the list check and the checked increment of the recipient's balance
    never fail there. *)
Theorem transfer_returns_iff env from to tb s :
  reachable s ->
  (exists r w', transfer env from to tb (enter s) = (Ok r, w'))
  <-> address_value (owner_of s tb) = Some from
      /\ transfer_authorized env s from tb
      /\ 1 <= uint64_value (balance_of s from).
Proof.
  intros Hreach. split.
  - intros (r & w' & H).
    apply transfer_Ok in H as (token & Htok & Hown & Hauth & Hbf & _).
    simpl in *. unfold owner_of. rewrite Htok. simpl. rewrite Hown.
    split; [done|]. split; [|done].
    destruct Hauth as [Hc|Hq]; [by left|right].
    by apply transfer_isTokenApproved_queries in Hq.
  - intros (Hown & Hauth & Hbal).
    exists mk_empty_object, (transferred from to tb (enter s)).
    apply transfer_run_bounded; try done.
    by apply reachable_ledger_bounded.
Qed.

Lemma transfer_returns_iff_witness :
  (exists r w', transfer (host alice) alice bob token_1 (enter s_minted)
                = (Ok r, w'))
  /\ ~ (exists r w', transfer (host alice) alice bob token_1
                       (enter s_self_transferred) = (Ok r, w')).
Proof.
  split.
  - apply transfer_returns_iff; [apply reachable_s_minted|].
    split; [vm_compute; reflexivity|]. split; [by left|].
    vm_compute. discriminate.
  - intros H. apply transfer_returns_iff in H as (_ & _ & H).
    + vm_compute in H. by apply H.
    + eapply (reachable_call (host alice) (op_transfer alice alice token_1)).
      * apply reachable_s_minted.
      * vm_compute. reflexivity.
Defined.

(** X10. A single-token approval works once. In a reachable state where [A]
    owns the token and has a balance of at least 1, [A] (with its own
    authority) can approve another account [B]; [B], calling by itself with
    no other right, can then transfer the token from [A] to any [C]; and
    after that transfer [B], unless it is [C] itself, an operator of [C] or
    holds [C]'s authority, cannot move the token again. *)
Theorem approval_is_single_use envA envB s A B C D tb :
  reachable s ->
  address_value (owner_of s tb) = Some A ->
  1 <= uint64_value (balance_of s A) ->
  A <> B ->
  checkAuthority envA A = true ->
  caller envB = B ->
  let w1 := approval_set A B tb (enter s) in
  let w2 := transferred A C tb (enter (store w1)) in
  approve envA A B tb (enter s) = (Ok mk_empty_object, w1)
  /\ transfer envB A C tb (enter (store w1)) = (Ok mk_empty_object, w2)
  /\ (B <> C ->
      bool_value (is_approved_for_all s C B) = false ->
      checkAuthority envB C = false ->
      transfer envB C D tb (enter (store w2))
      = (Err transfer_not_authorized, enter (store w2))).
Proof.
  intros Hreach Hown Hbal Hne HauthA Hcaller w1 w2.
  apply reachable_ledger_bounded in Hreach as Hb.
  assert (Hstore1 : same_ledger s (store w1)) by done.
  split; [|split].
  - rewrite approve_cases, HauthA. simpl.
    unfold owner_of in Hown. simpl in Hown.
    destruct (Storage.tokens_get s (StringBytes_bytesToString tb))
      as [token|]; [|discriminate].
    simpl in Hown. injection Hown as Hown. rewrite Hown.
    apply Arrays_equal_false in Hne. rewrite Hne.
    assert (Hself : Arrays_equal A A = true) by by apply Arrays_equal_true.
    by rewrite Hself.
  - apply transfer_run_bounded.
    + by apply (ledger_bounded_same s).
    + exact Hown.
    + right. left. rewrite Hcaller.
      unfold get_approved, Storage.approvals_get, w1, approval_set. simpl.
      by rewrite lookup_insert_eq.
    + exact Hbal.
  - intros HBC Hop HauthC.
    apply (transfer_unauthorized envB C D tb (enter (store w2))
             (mk_token_object C)).
    + unfold Storage.tokens_get. simpl. apply lookup_insert_eq.
    + done.
    + by rewrite Hcaller.
    + destruct (transfer_isTokenApproved envB (store (enter (store w2)))
                  (StringBytes_bytesToString tb) (mk_token_object C) C)
        eqn:Happ; [|done].
      apply (transfer_isTokenApproved_queries envB _ tb) in Happ; [|done].
      destruct Happ as [Hq|[Hq|Hq]].
      * unfold get_approved, Storage.approvals_get in Hq. simpl in Hq.
        by rewrite lookup_delete_eq in Hq.
      * rewrite Hcaller in Hq.
        change (is_approved_for_all (store (enter (store w2))) C B)
          with (is_approved_for_all s C B) in Hq. congruence.
      * congruence.
Qed.

Lemma approval_is_single_use_witness :
  let w1 := approval_set alice bob token_1 (enter s_minted) in
  let w2 := transferred alice carol token_1 (enter (store w1)) in
  transfer (host_no_authority bob) alice carol token_1 (enter (store w1))
  = (Ok mk_empty_object, w2)
  /\ transfer (host_no_authority bob) carol bob token_1 (enter (store w2))
     = (Err transfer_not_authorized, enter (store w2)).
Proof.
  intros w1 w2.
  destruct (approval_is_single_use (host alice) (host_no_authority bob)
              s_minted alice bob carol bob token_1)
    as (_ & Ht & Hagain).
  - apply reachable_s_minted.
  - vm_compute. reflexivity.
  - vm_compute. discriminate.
  - vm_compute. discriminate.
  - vm_compute. reflexivity.
  - reflexivity.
  - split; [exact Ht|]. apply Hagain.
    + vm_compute. discriminate.
    + vm_compute. reflexivity.
    + reflexivity.
Defined.

(** ** mint, further *)

(** X11. A [mint] of [count] tokens that returns creates the tokens numbered
    [Supply+1 .. Supply+count], each owned by the recipient: their
    identifiers are appended in that order to the recipient's list, its
    balance grows by [count], one mint event per token is emitted in the
    same order, and every other account's balance and list, the approvals,
    the operator approvals and the configuration are left as they were. *)
Theorem mint_creates_count_tokens env to count w r w' :
  mint env to count w = (Ok r, w') ->
  let ids := minted_ids (uint64_value (total_supply (store w)) + 1)
               (N.to_nat count) in
  length ids = N.to_nat count
  /\ token_id (tokens_of (store w') to)
     = (token_id (tokens_of (store w) to) ++ ids)%list
  /\ uint64_value (balance_of (store w') to)
     = uint64_value (balance_of (store w) to) + count
  /\ (forall id, id ∈ ids ->
                 _tokens (store w') !! id = Some (mk_token_object to))
  /\ (forall id, id ∉ ids ->
                 _tokens (store w') !! id = _tokens (store w) !! id)
  /\ events w' = (events w ++ mint_events to ids)%list
  /\ (forall account,
         account <> to ->
         balance_of (store w') account = balance_of (store w) account
         /\ tokens_of (store w') account = tokens_of (store w) account)
  /\ _approvals (store w') = _approvals (store w)
  /\ _operators (store w') = _operators (store w)
  /\ _config (store w') = _config (store w).
Proof.
  intros H ids.
  apply mint_Ok in H as (_ & _ & _ & _ & _ & _ & _ & ->).
  destruct (mint_loop_done_frame to ids w) as (_ & _ & Ha & Ho & Hc & _).
  split; [apply length_minted_ids|].
  unfold tokens_of, balance_of, Storage.balances_get.
  cbn [token_id uint64_value].
  rewrite minted_tokensOf, minted_balances, minted_events.
  split; [done|]. split; [by rewrite lookup_insert_eq|].
  split.
  { intros id Hin. rewrite minted_tokens, lookup_fold_insert_full.
    by rewrite decide_True. }
  split.
  { intros id Hin. rewrite minted_tokens, lookup_fold_insert_full.
    by rewrite decide_False. }
  split; [done|]. split; [|done].
  intros account Hne. rewrite lookup_insert_ne by done.
  unfold Storage.tokensOf_get. by rewrite minted_tokensOf_other.
Qed.

Lemma mint_creates_count_tokens_witness :
  let w' := snd (mint (quiet_host alice) bob 2 (enter s_minted)) in
  token_id (tokens_of (store w') bob) = ["2"; "3"]
  /\ uint64_value (balance_of (store w') bob) = 2.
Proof.
  intros w'.
  destruct (mint_creates_count_tokens (quiet_host alice) bob 2
              (enter s_minted)
              mk_empty_object w') as (_ & Hl & Hb & _).
  - vm_compute. reflexivity.
  - split; [exact Hl | exact Hb].
Defined.

(** X12. In a reachable state a [mint] returns exactly when the count is at
    most 10, the new supply lies between 1 and [MAX_SUPPLY], the host's
    compute cost is not zero and the two mana figures (the mint's own
    footprint and price times count) fit in 64 bits. The per-address limit
    never stops a mint there, because no balance exceeds the supply. *)
Theorem mint_returns_iff env to count s :
  reachable s ->
  (exists r w', mint env to count (enter s) = (Ok r, w'))
  <-> count <= 10
      /\ 1 <= uint64_value (total_supply s) + count <= Constants.MAX_SUPPLY
      /\ compute_bandwidth_cost env <> 0
      /\ mint_manaConsumed env <= U64_MAX
      /\ mint_totalMana s count <= U64_MAX.
Proof.
  intros Hreach. split.
  - intros (r & w' & H).
    apply mint_Ok in H as (Hc & Hpos & Hmax & _ & Hm & Ht & Hcc & _).
    simpl in *. repeat split; try done. lia.
  - intros (Hc & [Hpos Hmax] & Hcc & Hm & Ht).
    exists mk_empty_object, (minted env to count (enter s)).
    apply reachable_ledger_bounded in Hreach as (Hs & Hsum & _).
    pose proof (total_balance_lookup_le (_balances s) to) as Hle.
    unfold total_supply in *. cbn [uint64_value] in *.
    apply mint_run; simpl; try done; try lia.
    unfold Storage.balances_get. lia.
Qed.

Lemma mint_returns_iff_witness :
  (exists r w', mint (host alice) bob 10 (enter s_minted) = (Ok r, w'))
  /\ ~ (exists r w',
           mint (mk_Env [] alice (fun _ => true) 0 1 1) bob 1
             (enter s_minted) = (Ok r, w')).
Proof.
  split.
  - apply mint_returns_iff; [apply reachable_s_minted|].
    vm_compute. repeat split; discriminate.
  - intros H. apply mint_returns_iff in H as (_ & _ & H & _);
      [|apply reachable_s_minted].
    by apply H.
Defined.

(** X13. The busy loop of a [mint] that returns never burns more than what
    is left of the price: [14 * compute cost * iterations] is at most
    [price * count] minus the mint's own footprint, and when the footprint
    already covers the price no iteration is run. *)
Theorem mint_busy_loop_bounded env to count w r w' :
  mint env to count w = (Ok r, w') ->
  let price := uint64_value (Storage.manaCost_get (store w)) in
  let iterations := loops_run w' - loops_run w in
  loops_run w' = loops_run w + iterations
  /\ 14 * compute_bandwidth_cost env * iterations + mint_manaConsumed env
     <= N.max (price * count) (mint_manaConsumed env)
  /\ (price * count <= mint_manaConsumed env -> iterations = 0).
Proof.
  intros H price iterations.
  apply mint_Ok in H as (_ & _ & _ & _ & _ & _ & Hcc & ->).
  unfold iterations. rewrite minted_loops_run.
  set (c := compute_bandwidth_cost env) in *.
  set (a := mint_manaConsumed env).
  assert (Hrem : mint_remaining env (store w) count = price * count - a).
  { unfold mint_remaining, mint_totalMana. fold price a.
    destruct (N.ltb_spec a (price * count)); lia. }
  unfold mint_loops. rewrite Hrem. fold c.
  set (rem := price * count - a).
  rewrite (N.add_comm (loops_run w)), N.add_sub.
  assert (H1 : c * (rem / c) <= rem) by apply N.Div0.mul_div_le.
  assert (H2 : 14 * (rem / c / 14) <= rem / c) by apply N.Div0.mul_div_le.
  split; [apply N.add_comm|]. split.
  - assert (14 * c * (rem / c / 14) <= rem) by nia.
    unfold rem in *. lia.
  - intros Hle. assert (rem = 0) as -> by (unfold rem; lia).
    by rewrite !N.Div0.div_0_l.
Qed.

Lemma mint_busy_loop_bounded_witness :
  let w' := snd (mint (host alice) alice 1 (enter empty_storage)) in
  14 * 89 * (loops_run w' - 0) + mint_manaConsumed (host alice)
  <= N.max (100000000 * 1) (mint_manaConsumed (host alice)).
Proof.
  intros w'.
  destruct (mint_busy_loop_bounded (host alice) alice 1
              (enter empty_storage) mk_empty_object w') as (_ & H & _).
  - vm_compute. reflexivity.
  - exact H.
Defined.

(** ** set_royalties, further *)

Lemma royalties_loop_cases value total impacted w :
  total <= U64_MAX ->
  royalties_loop value total impacted w
  = if total + royalties_sum value <=? U64_MAX
    then (Ok (total + royalties_sum value,
              (impacted ++ map royalty_address value)%list), w)
    else (Err could_not_add, w).
Proof.
  intros Ht.
  destruct (N.leb_spec (total + royalties_sum value) U64_MAX) as [H|H].
  - by apply royalties_loop_run.
  - revert total impacted Ht H. induction value as [|r value IH];
      intros total impacted Ht H; simpl in *.
    + lia.
    + destruct (N.leb_spec (total + royalty_amount r) U64_MAX) as [H1|H1].
      * rewrite (bind_run _ _ _ _ _ (add_run _ _ _ H1)).
        apply IH; [done|lia].
      * apply bind_Err. by apply add_overflow.
Qed.

Lemma set_royalties_cases env value w :
  let current :=
    config_owner (Storage.config_get (contractId env) (store w)) in
  set_royalties env value w
  = if checkAuthority env current
    then if royalties_sum value <=? U64_MAX
         then if royalties_sum value <=? 10000
              then (Ok mk_empty_object, royalties_set env value w)
              else (Err royalty_exceeded_max, w)
         else (Err could_not_add, w)
    else (Err (authorization_failed current), w).
Proof.
  intros current.
  unfold set_royalties, _checkOwner. rewrite bind_gets. fold current.
  unfold bind at 1. rewrite requireAuthority_run.
  destruct (checkAuthority env current); [|done].
  unfold bind at 1. rewrite royalties_loop_cases, N.add_0_l by done.
  destruct (royalties_sum value <=? U64_MAX); [|done].
  cbn [fst snd]. unfold System.require.
  destruct (royalties_sum value <=? 10000); done.
Qed.

(** X14. With the authority of the configured owner, [set_royalties]
    returns exactly when the amounts of the schedule add up to at most
    10000, whatever their number and size (a sum that does not fit in 64
    bits is refused by the checked addition); otherwise it aborts before any
    write. Without that authority it always aborts, before any write. *)
Theorem set_royalties_returns_iff env value w :
  let current :=
    config_owner (Storage.config_get (contractId env) (store w)) in
  ((exists r w', set_royalties env value w = (Ok r, w'))
   <-> checkAuthority env current = true /\ royalties_sum value <= 10000)
  /\ (forall e w', set_royalties env value w = (Err e, w') -> w' = w)
  /\ (checkAuthority env current = false ->
      set_royalties env value w = (Err (authorization_failed current), w)).
Proof.
  intros current.
  rewrite set_royalties_cases. fold current.
  destruct (checkAuthority env current).
  - destruct (N.leb_spec (royalties_sum value) U64_MAX) as [Hu|Hu].
    + destruct (N.leb_spec (royalties_sum value) 10000) as [Hm|Hm].
      * split; [|split; [by intros|done]]. split; [done|by eauto].
      * split; [|split; [by intros e w' [= _ <-]|done]].
        split; [intros (r & w' & [=]) | intros [_ ?]; lia].
    + split; [|split; [by intros e w' [= _ <-]|done]].
      split; [intros (r & w' & [=])|]. intros [_ ?].
      unfold U64_MAX in *. lia.
  - split; [|split; [by intros e w' [= _ <-]|done]].
    split; [intros (r & w' & [=]) | by intros [[=] _]].
Qed.

Lemma set_royalties_returns_iff_witness :
  (exists r w',
      set_royalties (host Constants.OWNER)
        [mk_royalty_object alice 2500; mk_royalty_object bob 2500]
        (enter empty_storage) = (Ok r, w'))
  /\ set_royalties (host alice) [] (enter empty_storage)
     = (Err (authorization_failed Constants.OWNER), enter empty_storage).
Proof.
  split.
  - apply set_royalties_returns_iff. split; vm_compute; [reflexivity|].
    discriminate.
  - apply set_royalties_returns_iff. vm_compute. reflexivity.
Defined.

(** ** What every reachable registry satisfies *)

Lemma registry_wellformed_empty : registry_wellformed empty_storage.
Proof.
  split; [|split].
  - intros id. simpl. rewrite lookup_empty. split.
    + by intros [? [=]].
    + intros (k & _ & Hk). lia.
  - intros id ap H. simpl in H. by rewrite lookup_empty in H.
  - done.
Qed.

Lemma minted_ids_fresh s start len id :
  (forall id,
      is_Some (_tokens s !! id)
      <-> exists k, id = u64_toString k
                    /\ 1 <= k <= balance_value (Storage.supply_get s)) ->
  balance_value (Storage.supply_get s) < start ->
  id ∈ minted_ids start len -> _tokens s !! id = None.
Proof.
  intros Hdom Hlt Hin. apply elem_of_minted_ids in Hin as (k & -> & Hk).
  destruct (_tokens s !! u64_toString k) as [tok|] eqn:Hl; [|done].
  destruct (proj1 (Hdom (u64_toString k))) as (k' & Heq & Hk');
    [by eexists|].
  apply u64_toString_inj in Heq. subst k'. lia.
Qed.

Lemma registry_wellformed_mint env to n w r w' :
  mint env to n w = (Ok r, w') ->
  registry_wellformed (store w) -> registry_wellformed (store w').
Proof.
  intros H (Hdom & Happ & Hroy).
  apply mint_Ok in H as (_ & _ & _ & _ & _ & _ & _ & ->).
  set (s := store w) in *.
  set (supply := balance_value (Storage.supply_get s)) in *.
  set (ids := minted_ids (supply + 1) (N.to_nat n)).
  destruct (mint_loop_done_frame to ids w) as (_ & _ & Ha & _ & Hc & _).
  assert (Hlook : forall id,
             _tokens (store (minted env to n w)) !! id
             = if decide (id ∈ ids) then Some (mk_token_object to)
               else _tokens s !! id).
  { intros id. rewrite minted_tokens. apply lookup_fold_insert_full. }
  assert (Hfresh : forall id, id ∈ ids -> _tokens s !! id = None).
  { intros id. apply (minted_ids_fresh s); [done|]. fold supply. lia. }
  split; [|split].
  - intros id. rewrite Hlook. unfold Storage.supply_get.
    rewrite minted_supply. simpl. fold s supply.
    destruct (decide (id ∈ ids)) as [Hin|Hnin].
    + split; [|by eauto]. intros _.
      apply elem_of_minted_ids in Hin as (k & -> & Hk).
      exists k. split; [done|]. lia.
    + rewrite Hdom. fold supply. split.
      * intros (k & -> & Hk). exists k. split; [done|]. lia.
      * intros (k & -> & Hk). exists k. split; [done|].
        destruct (decide (k <= supply)) as [|Hgt]; [lia|].
        exfalso. apply Hnin. apply elem_of_minted_ids. exists k.
        split; [done|]. lia.
  - intros id ap Hap.
    change (_approvals (store (minted env to n w)))
      with (_approvals (store (mint_loop_done to ids w))) in Hap.
    rewrite Ha in Hap. destruct (Happ id ap Hap) as (tok & Htok & Hne).
    exists tok. split; [|done]. rewrite Hlook.
    destruct (decide (id ∈ ids)) as [Hin|Hnin]; [|done].
    apply Hfresh in Hin. fold s in Htok. congruence.
  - change (_config (store (minted env to n w)))
      with (_config (store (mint_loop_done to ids w))).
    by rewrite Hc.
Qed.

Lemma registry_wellformed_transfer env from to tb w r w' :
  transfer env from to tb w = (Ok r, w') ->
  registry_wellformed (store w) -> registry_wellformed (store w').
Proof.
  intros H (Hdom & Happ & Hroy).
  apply transfer_Ok in H as (token & Htok & _ & _ & _ & _ & _ & ->).
  set (tid := StringBytes_bytesToString tb) in *.
  split; [|split].
  - intros id. rewrite transferred_tokens. fold tid.
    change (Storage.supply_get (store (transferred from to tb w)))
      with (Storage.supply_get (store w)).
    rewrite <- Hdom. destruct (decide (id = tid)) as [->|Hne]; [|done].
    unfold Storage.tokens_get in Htok. rewrite Htok. split; by eauto.
  - intros id ap Hap.
    change (_approvals (store (transferred from to tb w)))
      with (delete tid (_approvals (store w))) in Hap.
    destruct (decide (tid = id)) as [<-|Hne];
      [by rewrite lookup_delete_eq in Hap|].
    rewrite lookup_delete_ne in Hap by done.
    destruct (Happ id ap Hap) as (tok & Hl & Ho). exists tok.
    split; [|done]. rewrite transferred_tokens. fold tid.
    by rewrite decide_False by congruence.
  - done.
Qed.

Lemma registry_wellformed_approve env approver to tb w r w' :
  approve env approver to tb w = (Ok r, w') ->
  registry_wellformed (store w) -> registry_wellformed (store w').
Proof.
  intros H (Hdom & Happ & Hroy).
  assert (Hcond : w' = approval_set approver to tb w
                  /\ exists token,
                       Storage.tokens_get (store w)
                         (StringBytes_bytesToString tb) = Some token
                       /\ token_owner token <> to).
  { rewrite approve_cases in H.
    destruct (checkAuthority env approver); [|discriminate].
    simpl in H.
    destruct (Storage.tokens_get _ _) as [token|]; [|discriminate].
    destruct (Arrays_equal (token_owner token) to) eqn:Hto; [discriminate|].
    apply Arrays_equal_false in Hto.
    split; [|by eauto].
    destruct (Arrays_equal (token_owner token) approver); [by inversion H|].
    destruct (Storage.operators_get _ _) as [ap|]; [|discriminate].
    destruct (operator_approved ap); [by inversion H | discriminate]. }
  destruct Hcond as (-> & token & Htok & Hne).
  split; [done|]. split; [|done].
  intros id ap Hap. unfold approval_set in Hap. simpl in Hap.
  destruct (decide (StringBytes_bytesToString tb = id)) as [<-|Hid].
  - rewrite lookup_insert_eq in Hap. injection Hap as <-.
    exists token. split; [exact Htok | exact Hne].
  - rewrite lookup_insert_ne in Hap by done. by apply Happ.
Qed.

Lemma registry_wellformed_run env op w r w' :
  run env op w = (Ok r, w') ->
  registry_wellformed (store w) -> registry_wellformed (store w').
Proof.
  destruct op; simpl; intros H Hwf.
  - by eapply registry_wellformed_mint.
  - by eapply registry_wellformed_transfer.
  - by eapply registry_wellformed_approve.
  - apply set_approval_for_all_Ok in H as ->. exact Hwf.
  - inversion H. by subst.
  - rewrite set_royalties_cases in H.
    destruct (checkAuthority _ _); [|discriminate].
    destruct (_ <=? U64_MAX); [|discriminate].
    destruct (N.leb_spec (royalties_sum value) 10000); [|discriminate].
    inversion H. subst w'. destruct Hwf as (Hdom & Happ & _).
    split; [exact Hdom|]. split; [exact Happ|]. simpl. done.
  - apply transfer_ownership_Ok in H as ->.
    destruct Hwf as (Hdom & Happ & Hroy). split; [done|]. split; [done|].
    simpl. unfold Storage.config_get.
    by destruct (_config (store w)).
Qed.

Lemma reachable_registry_wellformed s :
  reachable s -> registry_wellformed s.
Proof.
  induction 1 as [|env op s r s' evs _ IH Hcall].
  - apply registry_wellformed_empty.
  - apply call_inv in Hcall as (w' & Hrun & -> & _).
    by apply (registry_wellformed_run env op (enter s) r w').
Qed.

Lemma reachable_s_approved : reachable s_approved.
Proof.
  eapply (reachable_call (host alice) (op_approve alice bob token_1)).
  - apply reachable_s_minted.
  - vm_compute. reflexivity.
Qed.

Lemma reachable_wst_s_minted : reachable_without_self_transfer s_minted.
Proof.
  eapply (reachable_wst_call (host alice) (op_mint alice 1)).
  - apply reachable_wst_empty.
  - exact I.
  - vm_compute. reflexivity.
Qed.

(** X15. In every reachable state the tokens that exist are exactly those
    numbered 1 to the supply: [owner_of] answers an owner for an identifier
    if and only if it is the decimal numeral of some [k] with
    [1 <= k <= Supply]. *)
Theorem token_ids_are_the_numerals_up_to_supply s tb :
  reachable s ->
  is_Some (address_value (owner_of s tb))
  <-> exists k, StringBytes_bytesToString tb = u64_toString k
                /\ 1 <= k <= uint64_value (total_supply s).
Proof.
  intros Hreach. apply reachable_registry_wellformed in Hreach as (Hdom & _).
  rewrite <- Hdom. unfold owner_of, Storage.tokens_get.
  destruct (_tokens s !! StringBytes_bytesToString tb); simpl.
  - split; by eauto.
  - split; by intros [? [=]].
Qed.

Lemma token_ids_are_the_numerals_up_to_supply_witness :
  is_Some (address_value (owner_of s_minted token_1))
  /\ ~ is_Some (address_value
                  (owner_of s_minted (StringBytes_stringToBytes "2"))).
Proof.
  split.
  - apply token_ids_are_the_numerals_up_to_supply;
      [apply reachable_s_minted|].
    exists 1. vm_compute. repeat split; discriminate.
  - intros H. apply token_ids_are_the_numerals_up_to_supply in H
      as (k & Hk & Hr); [|apply reachable_s_minted].
    change (StringBytes_bytesToString (StringBytes_stringToBytes "2"))
      with (u64_toString 2) in Hk.
    apply u64_toString_inj in Hk. subst k. vm_compute in Hr.
    destruct Hr as [_ Hr]. by apply Hr.
Defined.

(** X16. In every reachable state a single-token approval exists only for a
    token that exists, and the approved account is never the token's
    current owner. *)
Theorem approval_never_names_the_owner s tb approved :
  reachable s ->
  address_value (get_approved s tb) = Some approved ->
  exists owner, address_value (owner_of s tb) = Some owner
                /\ owner <> approved.
Proof.
  intros Hreach Hap.
  apply reachable_registry_wellformed in Hreach as (_ & Happ & _).
  unfold get_approved, Storage.approvals_get in Hap.
  destruct (_approvals s !! StringBytes_bytesToString tb) as [ap|] eqn:Hl;
    [|discriminate].
  simpl in Hap. injection Hap as <-.
  destruct (Happ _ ap Hl) as (tok & Htok & Hne).
  exists (token_owner tok). split; [|done].
  unfold owner_of, Storage.tokens_get. by rewrite Htok.
Qed.

Lemma approval_never_names_the_owner_witness :
  exists owner, address_value (owner_of s_approved token_1) = Some owner
                /\ owner <> bob.
Proof.
  apply approval_never_names_the_owner.
  - apply reachable_s_approved.
  - vm_compute. reflexivity.
Defined.



(** X18. In a reachable state a [mint] never touches the tokens that already
    exist: the identifiers it assigns are new, so every existing token keeps
    its owner and its single-token approval. *)
Theorem mint_keeps_existing_tokens env to count s r w' tb :
  reachable s ->
  mint env to count (enter s) = (Ok r, w') ->
  is_Some (address_value (owner_of s tb)) ->
  owner_of (store w') tb = owner_of s tb
  /\ get_approved (store w') tb = get_approved s tb.
Proof.
  intros Hreach H Hex.
  apply reachable_registry_wellformed in Hreach as (Hdom & _).
  apply mint_Ok in H as (_ & _ & _ & _ & _ & _ & _ & ->).
  set (ids := minted_ids (balance_value (Storage.supply_get s) + 1)
                (N.to_nat count)).
  destruct (mint_loop_done_frame to ids (enter s)) as (_ & _ & Ha & _).
  split.
  - unfold owner_of, Storage.tokens_get in *.
    rewrite minted_tokens, lookup_fold_insert_full.
    destruct (decide (StringBytes_bytesToString tb ∈ _)) as [Hin|]; [|done].
    apply (minted_ids_fresh s) in Hin; [|done|simpl; lia].
    rewrite Hin in Hex. simpl in Hex. by destruct Hex.
  - unfold get_approved, Storage.approvals_get.
    change (_approvals (store (minted env to count (enter s))))
      with (_approvals (store (mint_loop_done to ids (enter s)))).
    by rewrite Ha.
Qed.

Lemma mint_keeps_existing_tokens_witness :
  let w' := snd (mint (quiet_host bob) bob 2 (enter s_approved)) in
  address_value (owner_of (store w') token_1) = Some alice
  /\ address_value (get_approved (store w') token_1) = Some bob.
Proof.
  intros w'.
  destruct (mint_keeps_existing_tokens (quiet_host bob) bob 2 s_approved
              mk_empty_object w' token_1) as [Ho Ha].
  - apply reachable_s_approved.
  - vm_compute. reflexivity.
  - vm_compute. by eexists.
  - rewrite Ho, Ha. clear Ho Ha. vm_compute. split; reflexivity.
Defined.

(** X19. No call ever takes anything back: after any call that returns, the
    supply is at least what it was (and the same unless the call is a
    mint), every token that existed still exists, and the configuration is
    the same unless the call is [set_royalties] or [transfer_ownership]. *)
Theorem calls_never_take_back env op s r s' evs :
  call env op s = (Ok r, s', evs) ->
  uint64_value (total_supply s) <= uint64_value (total_supply s')
  /\ (forall tb, is_Some (address_value (owner_of s tb)) ->
                 is_Some (address_value (owner_of s' tb)))
  /\ (writes_config op = false -> _config s' = _config s)
  /\ ((forall to n, op <> op_mint to n) ->
      total_supply s' = total_supply s).
Proof.
  intros Hcall. apply call_inv in Hcall as (w' & Hrun & -> & _).
  assert (Hsame : forall s1,
            same_ledger s s1 ->
            (writes_config op = false -> _config s1 = _config s) ->
            uint64_value (total_supply s) <= uint64_value (total_supply s1)
            /\ (forall tb, is_Some (address_value (owner_of s tb)) ->
                           is_Some (address_value (owner_of s1 tb)))
            /\ (writes_config op = false -> _config s1 = _config s)
            /\ ((forall to n, op <> op_mint to n) ->
                total_supply s1 = total_supply s)).
  { intros s1 (Hs & Ht & _) Hc.
    unfold total_supply, owner_of, Storage.supply_get, Storage.tokens_get.
    rewrite Hs, Ht. repeat split; try done. }
  destruct op as [to n|from to t|approver to t|approver operator approved
                  |t|value|new_owner]; simpl in Hrun.
  - apply mint_Ok in Hrun as (_ & _ & _ & _ & _ & _ & _ & ->).
    set (ids := minted_ids (balance_value (Storage.supply_get s) + 1)
                  (N.to_nat n)).
    destruct (mint_loop_done_frame to ids (enter s))
      as (_ & _ & _ & _ & Hc & _).
    split; [|split; [|split]].
    + unfold total_supply, Storage.supply_get. rewrite minted_supply.
      simpl. unfold Storage.supply_get. lia.
    + intros tb. unfold owner_of, Storage.tokens_get.
      rewrite minted_tokens, lookup_fold_insert_full.
      destruct (decide (_ ∈ _)); [by eauto | done].
    + intros _.
      change (_config (store (minted env to n (enter s))))
        with (_config (store (mint_loop_done to ids (enter s)))).
      by rewrite Hc.
    + intros Hop. by destruct (Hop to n).
  - apply transfer_Ok in Hrun as (token & _ & _ & _ & _ & _ & _ & ->).
    split; [done|]. split; [|done].
    intros tb0. unfold owner_of, Storage.tokens_get.
    rewrite transferred_tokens.
    destruct (decide (_ = _)); [by eauto | done].
  - apply approve_Ok in Hrun as ->. by apply Hsame.
  - apply set_approval_for_all_Ok in Hrun as ->. by apply Hsame.
  - inversion Hrun. subst w'. by apply Hsame.
  - apply set_royalties_Ok in Hrun as ->. by apply Hsame.
  - apply transfer_ownership_Ok in Hrun as ->. by apply Hsame.
Qed.

Lemma calls_never_take_back_witness :
  is_Some (address_value (owner_of s_self_transferred token_1))
  /\ total_supply s_self_transferred = total_supply s_minted.
Proof.
  destruct (calls_never_take_back (host alice)
              (op_transfer alice alice token_1) s_minted mk_empty_object
              s_self_transferred
              (events (snd (transfer (host alice) alice alice token_1
                              (enter s_minted)))))
    as (_ & Hk & _ & Hs).
  - vm_compute. reflexivity.
  - split; [|by apply Hs]. apply Hk. vm_compute. by eexists.
Defined.

(** X20. Along every run that contains no transfer from an account to
    itself, each token list is an exact index of the records: it has no
    duplicate, it contains an identifier if and only if the token exists and
    is owned by that account, and the stored balance is its length. *)
Theorem token_lists_index_the_records s account :
  reachable_without_self_transfer s ->
  NoDup (token_id (tokens_of s account))
  /\ (forall tb,
         StringBytes_bytesToString tb ∈ token_id (tokens_of s account)
         <-> address_value (owner_of s tb) = Some account)
  /\ uint64_value (balance_of s account)
     = N.of_nat (length (token_id (tokens_of s account))).
Proof.
  intros H.
  assert (Hidx : ledger_indexed s).
  { induction H as [|env op s r s' evs _ IH Hns Hcall].
    - apply ledger_indexed_empty.
    - apply call_inv in Hcall as (w' & Hrun & -> & _).
      by apply (ledger_indexed_run env op (enter s) r w'). }
  destruct Hidx as (Hnd & Hiff & Hbal & _).
  split; [apply Hnd|]. split; [|apply Hbal].
  intros tb. unfold tokens_of, owner_of, Storage.tokens_get. simpl.
  rewrite Hiff. destruct (_tokens s !! StringBytes_bytesToString tb); simpl.
  - split.
    + intros (tok & [= <-] & <-). done.
    + intros [= <-]. by eauto.
  - split; [intros (tok & [=] & _) | intros [=]].
Qed.

Lemma token_lists_index_the_records_witness :
  NoDup (token_id (tokens_of s_minted alice))
  /\ uint64_value (balance_of s_minted alice)
     = N.of_nat (length (token_id (tokens_of s_minted alice))).
Proof.
  destruct (token_lists_index_the_records s_minted alice) as (Hn & _ & Hb).
  - apply reachable_wst_s_minted.
  - by split.
Defined.

(** X21. In every reachable state, self-transfers included, the stored
    balances add up to at most the supply, so every balance is at most the
    supply, and every token is in the token list of its owner. *)
Theorem balances_within_supply s :
  reachable s ->
  total_balance (_balances s) <= uint64_value (total_supply s)
  /\ (forall account,
         uint64_value (balance_of s account)
         <= uint64_value (total_supply s))
  /\ (forall tb owner,
         address_value (owner_of s tb) = Some owner ->
         StringBytes_bytesToString tb ∈ token_id (tokens_of s owner)).
Proof.
  intros Hreach.
  apply reachable_ledger_bounded in Hreach as (_ & Hsum & Hlist).
  split; [done|]. split.
  - intros account.
    pose proof (total_balance_lookup_le (_balances s) account) as Hle.
    unfold balance_of, total_supply, Storage.balances_get. simpl. lia.
  - intros tb o. unfold owner_of, Storage.tokens_get.
    destruct (_tokens s !! StringBytes_bytesToString tb) as [tok|] eqn:Hl;
      [|discriminate].
    simpl. intros [= <-]. by apply Hlist.
Qed.

Lemma balances_within_supply_witness :
  uint64_value (balance_of s_self_transferred alice)
  <= uint64_value (total_supply s_self_transferred)
  /\ "1" ∈ token_id (tokens_of s_self_transferred alice).
Proof.
  destruct (balances_within_supply s_self_transferred) as (_ & Hb & Hl).
  - eapply (reachable_call (host alice) (op_transfer alice alice token_1)).
    + apply reachable_s_minted.
    + vm_compute. reflexivity.
  - split; [apply Hb|]. apply (Hl token_1 alice). vm_compute. reflexivity.
Defined.

(** ** Which call writes what *)

Lemma run_Ok_world env op w r w' :
  run env op w = (Ok r, w') ->
  match op with
  | op_mint to n => w' = minted env to n w
  | op_transfer from to t => w' = transferred from to t w
  | op_approve a to t => w' = approval_set a to t w
  | op_set_approval_for_all a o b => w' = operator_set a o b w
  | op_burn _ => w' = w
  | op_set_royalties v => w' = royalties_set env v w
  | op_transfer_ownership o => w' = ownership_transferred env o w
  end.
Proof.
  destruct op as [to n|from to t|approver to t|approver operator approved
                  |t|value|new_owner]; simpl; intros H.
  - by apply mint_Ok in H as (_ & _ & _ & _ & _ & _ & _ & ->).
  - by apply transfer_Ok in H as (token & _ & _ & _ & _ & _ & _ & ->).
  - rewrite approve_cases in H.
    destruct (checkAuthority env approver); [|discriminate].
    simpl in H.
    destruct (Storage.tokens_get _ _) as [token|]; [|discriminate].
    destruct (Arrays_equal (token_owner token) to); [discriminate|].
    destruct (Arrays_equal (token_owner token) approver); [by inversion H|].
    destruct (Storage.operators_get _ _) as [ap|]; [|discriminate].
    destruct (operator_approved ap); [by inversion H | discriminate].
  - rewrite set_approval_for_all_cases in H.
    destruct (checkAuthority env approver); [|discriminate].
    simpl in H.
    destruct (Arrays_equal approver operator); [discriminate|by inversion H].
  - by inversion H.
  - rewrite set_royalties_cases in H.
    destruct (checkAuthority _ _); [|discriminate].
    destruct (_ <=? U64_MAX); [|discriminate].
    destruct (_ <=? 10000); [by inversion H|discriminate].
  - rewrite transfer_ownership_cases in H.
    destruct (checkAuthority _ _); [by inversion H|discriminate].
Qed.

(** X22. Each operation writes only its own storage spaces: the ledger
    (supply, token records, balances, token lists) is written by [mint] and
    [transfer] only, the single-token approvals by [approve] and [transfer]
    only, the operator approvals by [set_approval_for_all] only, and the
    mana price by no operation at all. *)
Theorem calls_write_only_their_spaces env op s r s' evs :
  call env op s = (Ok r, s', evs) ->
  (writes_ledger op = false -> same_ledger s s')
  /\ (writes_approvals op = false -> _approvals s' = _approvals s)
  /\ (writes_operators op = false -> _operators s' = _operators s)
  /\ _manaCost s' = _manaCost s.
Proof.
  intros Hcall. apply call_inv in Hcall as (w' & Hrun & -> & _).
  apply run_Ok_world in Hrun.
  destruct op as [to n|from to t|approver to t|approver operator approved
                  |t|value|new_owner]; subst w'; simpl; try done.
  destruct (mint_loop_done_frame to
              (minted_ids (balance_value (Storage.supply_get s) + 1)
                 (N.to_nat n)) (enter s))
    as (_ & _ & Ha & Ho & _ & Hm & _).
  simpl in *. by rewrite Ha, Ho, Hm.
Qed.

Lemma calls_write_only_their_spaces_witness :
  same_ledger s_minted s_approved
  /\ _operators s_approved = _operators s_minted.
Proof.
  destruct (calls_write_only_their_spaces (host alice)
              (op_approve alice bob token_1) s_minted mk_empty_object
              s_approved
              (events (snd (approve (host alice) alice bob token_1
                              (enter s_minted)))))
    as (Hl & _ & Ho & _).
  - vm_compute. reflexivity.
  - split; [by apply Hl | by apply Ho].
Defined.

(** X23. A call that returns emits one event per logical change: a [mint]
    one per minted token, [burn] none, every other operation exactly one. *)
Theorem calls_emit_one_event_per_change env op s r s' evs :
  call env op s = (Ok r, s', evs) ->
  length evs = events_emitted op.
Proof.
  intros Hcall. apply call_inv in Hcall as (w' & Hrun & _ & ->).
  apply run_Ok_world in Hrun.
  destruct op as [to n|from to t|approver to t|approver operator approved
                  |t|value|new_owner]; subst w'; try done.
  rewrite minted_events. simpl. unfold mint_events.
  by rewrite length_map, length_minted_ids.
Qed.

Lemma calls_emit_one_event_per_change_witness :
  length (events (snd (mint (quiet_host alice) bob 2 (enter s_minted))))
  = 2%nat.
Proof.
  apply (calls_emit_one_event_per_change (quiet_host alice) (op_mint bob 2)
           s_minted mk_empty_object
           (store (snd (mint (quiet_host alice) bob 2 (enter s_minted))))).
  vm_compute. reflexivity.
Defined.

(** X24. The price of a mint never changes: no operation writes it, so in
    every reachable state the price per token is [MINT_PRICE]. *)
Theorem mint_price_is_constant s :
  reachable s ->
  uint64_value (Storage.manaCost_get s) = Constants.MINT_PRICE.
Proof.
  intros H.
  assert (Hnone : _manaCost s = None).
  { induction H as [|env op s r s' evs _ IH Hcall]; [done|].
    apply call_inv in Hcall as (w' & Hrun & -> & _).
    apply run_Ok_world in Hrun.
    destruct op as [to n|from to t|approver to t|approver operator approved
                    |t|value|new_owner]; subst w'; simpl; try done.
    destruct (mint_loop_done_frame to
                (minted_ids (balance_value (Storage.supply_get s) + 1)
                   (N.to_nat n)) (enter s))
      as (_ & _ & _ & _ & _ & Hm & _).
    simpl in *. by rewrite Hm. }
  unfold Storage.manaCost_get. by rewrite Hnone.
Qed.

Lemma mint_price_is_constant_witness :
  uint64_value (Storage.manaCost_get s_approved) = 100000000.
Proof. apply mint_price_is_constant. apply reachable_s_approved. Defined.
